(** * Clifford + phase probability computation (compute.hpp)

    Shallow embedding of [src/simulators/clifford_plus_phase/compute.hpp]:
    the gate dispatch of [State::apply_gate], the Gray-code summation
    [compute_algorithm_all_phases_T] and [State::compute_probability].

    Conventions.
    - [size_t] and [uint_t] are 64-bit unsigned integers, modelled as [Z];
      where an operation can leave the range the reduction modulo [2^64] is
      written out.
    - [double] and [long double] are idealised as real numbers ([R]);
      [powl x y] is [Rpower x y].
    - The tableau class [AGState] (ag_state.hpp) and the Pauli class
      (pauli.hpp) are consumed through an interface: the fields that
      compute.hpp reads and writes are record fields, everything else is a
      member of the class [AGInterface].
    - Console tracing ([std::cout]) is not modelled. *)

From Stdlib Require Import ZArith List Bool Lia String Ascii.
From Stdlib Require Import Reals Lra.
Import ListNotations.

Local Open Scope Z_scope.

(** ** Machine integers *)

Definition uint_modulus : Z := 2 ^ 64.

(** [const uint_t ONE = 1ULL] of the framework headers. *)
Definition ONE : Z := 1.

(** [a << i] on [uint_t]. *)
Definition shl64 (a i : Z) : Z := Z.shiftl a i mod uint_modulus.

(** Unsigned subtraction [a - b] on [size_t]. *)
Definition sub64 (a b : Z) : Z := (a - b) mod uint_modulus.

(** [mask++] on [uint_t]. *)
Definition incr64 (a : Z) : Z := (a + 1) mod uint_modulus.

(** ** Binary vectors and Pauli rows *)

(** [BV::BinaryVector]: [v[j]] reads bit [j]. *)
Definition bv_get (v : list bool) (j : nat) : bool := nth j v false.

(** Modelled from the spec: [BinaryVector::resize(t)] (binary_vector.hpp is
    not part of the excerpt) truncates the bit vector to length [t]: it keeps
    the first [t] bits and pads with zeros. *)
Definition bv_resize (t : nat) (v : list bool) : list bool :=
  firstn t v ++ repeat false (t - List.length v)%nat.

(** Modelled from the spec: [BinaryVector::operator+=] (binary_vector.hpp is
    not part of the excerpt) is the symmetric difference of the two bit
    vectors; the left operand keeps its length. *)
Fixpoint bv_add (a b : list bool) : list bool :=
  match a, b with
  | [], _ => []
  | x :: a', [] => x :: a'
  | x :: a', y :: b' => xorb x y :: bv_add a' b'
  end.

Module Pauli.
Record Pauli : Type := mk { X : list bool; Z : list bool }.
End Pauli.

Definition PauliRow : Type := Pauli.Pauli.

(** [Pauli::Pauli row(len)]: the identity on [len] qubits. *)
Definition pauli_identity (len : Z) : PauliRow :=
  Pauli.mk (repeat false (Z.to_nat len)) (repeat false (Z.to_nat len)).

(** Modelled from the spec: [row += other] (pauli.hpp is not part of the
    excerpt) is the symmetric difference on both bit vectors. *)
Definition pauli_add (row other : PauliRow) : PauliRow :=
  Pauli.mk (bv_add (Pauli.X row) (Pauli.X other))
           (bv_add (Pauli.Z row) (Pauli.Z other)).

(** ** Gray code *)

(** [uint_t BinaryToGray(uint_t num) { return num ^ (num >> 1); }] *)
Definition BinaryToGray (num : Z) : Z := Z.lxor num (Z.shiftr num 1).

(** Index of the lowest set bit of a positive number. *)
Fixpoint pos_lowbit (p : positive) : Z :=
  match p with
  | xO q => 1 + pos_lowbit q
  | _ => 0
  end.

Definition lowbit (m : Z) : Z :=
  match m with
  | Zpos p => pos_lowbit p
  | _ => 0
  end.

(** ** The tableau component, as compute.hpp sees it *)

(** [AGState]: the four members that compute.hpp reads and writes, and the
    rest of the object ([rest]), which only the tableau's own methods use. *)
Record AGState (Rest : Type) : Type := mkAGState {
  num_qubits : Z;
  num_stabilizers : Z;
  table : list PauliRow;
  magic_phases : list R;
  rest : Rest
}.

Arguments mkAGState {Rest}.
Arguments num_qubits {Rest}.
Arguments num_stabilizers {Rest}.
Arguments table {Rest}.
Arguments magic_phases {Rest}.
Arguments rest {Rest}.

(** [copied_ag.num_qubits = t;] *)
Definition set_num_qubits {Rest} (ag : AGState Rest) (t : Z) : AGState Rest :=
  mkAGState t (num_stabilizers ag) (table ag) (magic_phases ag) (rest ag).

Definition set_table {Rest} (ag : AGState Rest) (rows : list PauliRow)
  : AGState Rest :=
  mkAGState (num_qubits ag) (num_stabilizers ag) rows (magic_phases ag)
            (rest ag).

(** Methods and constants that ag_state.hpp and pauli.hpp provide.  A method
    that mutates the tableau maps the tableau before the call to the tableau
    after it. *)
Class AGInterface : Type := {
  Rest : Type;
  AG_CHOP_THRESHOLD : R;
  phase_exponent : PauliRow -> PauliRow -> Z;
  applyX : AGState Rest -> Z -> AGState Rest;
  applyY : AGState Rest -> Z -> AGState Rest;
  applyZ : AGState Rest -> Z -> AGState Rest;
  applyH : AGState Rest -> Z -> AGState Rest;
  applyS : AGState Rest -> Z -> AGState Rest;
  applyCX : AGState Rest -> Z -> Z -> AGState Rest;
  applyCZ : AGState Rest -> Z -> Z -> AGState Rest;
  applySwap : AGState Rest -> Z -> Z -> AGState Rest;
  gadgetized_phase_gate : AGState Rest -> Z -> R -> AGState Rest;
  apply_constraints : AGState Rest -> Z -> Z -> AGState Rest * (bool * Z);
  apply_T_constraints : AGState Rest -> AGState Rest;
  delete_identity_magic_qubits : AGState Rest -> AGState Rest
}.

(** Modelled from the spec: the constant [T_ANGLE] of ag_state.hpp is the
    canonical T angle, pi/4. *)
Definition T_ANGLE : R := (PI / 4)%R.

(** [powl] over the reals. *)
Definition powl (b e : R) : R := Rpower b e.

(** ** The Gray-code summation *)

Section Summation.
Context {AGI : AGInterface}.

(** Lines 203-206: [full_mask |= (ONE << i)] for [i < num_stabilizers];
    [full_mask_loop n] is the value after the first [n] iterations. *)
Fixpoint full_mask_loop (n : nat) : Z :=
  match n with
  | O => 0
  | S k => Z.lor (full_mask_loop k) (shl64 ONE (Z.of_nat k))
  end.

(** Lines 213-219: the first [j] with [(m >> j) & ONE], scanning [n]
    positions from [j]; [bit_to_flip] stays 0 when there is none. *)
Fixpoint find_bit_to_flip (n : nat) (j : Z) (m : Z) : Z :=
  match n with
  | O => 0
  | S k =>
      if negb (Z.land (Z.shiftr m j) ONE =? 0) then j
      else find_bit_to_flip k (j + 1) m
  end.

(** [state.table[i]]. *)
Definition table_at (state : AGState Rest) (i : Z) : PauliRow :=
  nth (Z.to_nat i) (table state) (Pauli.mk [] []).

(** Lines 227-241: the weight scan over the qubits [j .. j+n-1] of [row],
    with its [break] at the first Z-only position.  The triple is
    [(XCount, YCount, ZCount)]; the counters are bounded by the number of
    qubits, so their increments do not wrap. *)
Fixpoint count_loop (n j : nat) (row : PauliRow) (c : Z * Z * Z)
  : Z * Z * Z :=
  match n with
  | O => c
  | S k =>
      let '(XCount, YCount, ZCount) := c in
      let X_j := bv_get (Pauli.X row) j in
      let Z_j := bv_get (Pauli.Z row) j in
      let XCount := if X_j && negb Z_j then XCount + 1 else XCount in
      if negb X_j && Z_j then (XCount, YCount, ZCount + 1)
      else
        let YCount := if X_j && Z_j then YCount + 1 else YCount in
        count_loop k (S j) row (XCount, YCount, ZCount)
  end.

(** Lines 243-249: what one accumulated row does to [acc]. *)
Definition accumulate (acc : R) (phase : Z) (c : Z * Z * Z) : R :=
  let '(XCount, YCount, ZCount) := c in
  if ZCount =? 0 then
    if (phase + YCount) mod 2 =? 0
    then (acc + powl (1 / 2) (IZR (XCount + YCount) / 2))%R
    else (acc - powl (1 / 2) (IZR (XCount + YCount) / 2))%R
  else acc.

(** The variables that live across iterations of the main loop. *)
Record loop_vars : Type := mkVars {
  acc : R;
  row : PauliRow;
  phase : Z   (* unsigned char *)
}.

(** Lines 212-249: the body of the main loop for one [mask]. *)
Definition gray_step (state : AGState Rest) (mask : Z) (vs : loop_vars)
  : loop_vars :=
  let mask_with_bit_to_flip :=
    Z.lxor (BinaryToGray mask) (BinaryToGray (sub64 mask 1)) in
  let bit_to_flip :=
    find_bit_to_flip (Z.to_nat (num_stabilizers state)) 0
                     mask_with_bit_to_flip in
  let phase :=
    (phase vs + phase_exponent (row vs) (table_at state bit_to_flip))
      mod 256 in
  let row := pauli_add (row vs) (table_at state bit_to_flip) in
  let counts := count_loop (Z.to_nat (num_qubits state)) 0 row (0, 0, 0) in
  mkVars (accumulate (acc vs) phase counts) row phase.

(** Line 211: [for (mask = 1u; mask <= full_mask; mask++)], started at
    [mask].  [None] when [fuel] iterations do not reach the exit. *)
Fixpoint gray_loop (fuel : nat) (state : AGState Rest) (full_mask mask : Z)
         (vs : loop_vars) : option loop_vars :=
  match fuel with
  | O => None
  | S fuel' =>
      if mask <=? full_mask
      then gray_loop fuel' state full_mask (incr64 mask)
                     (gray_step state mask vs)
      else Some vs
  end.

Definition initial_vars (state : AGState Rest) : loop_vars :=
  mkVars 1%R (pauli_identity (num_qubits state)) 0.

(** [double compute_algorithm_all_phases_T(AGState &state)] *)
Definition compute_algorithm_all_phases_T (fuel : nat)
           (state : AGState Rest) : option R :=
  let full_mask := full_mask_loop (Z.to_nat (num_stabilizers state)) in
  match gray_loop fuel state full_mask 1 (initial_vars state) with
  | None => None
  | Some vs => Some (if full_mask =? 0 then 1%R else acc vs)
  end.

(** The loop variables after the masks [1 .. m] have been processed. *)
Fixpoint gray_run (state : AGState Rest) (m : nat) : loop_vars :=
  match m with
  | O => initial_vars state
  | S k => gray_step state (Z.of_nat (S k)) (gray_run state k)
  end.

End Summation.

(** ** Operations, gates and errors *)

(** [Operations::Op], restricted to the members used by [apply_gate]. *)
Record Op : Type := mkOp {
  name : string;
  qubits : list Z
}.

Module Gates.
Inductive Gates : Type :=
  id | x | y | z | h | s | sdg | sx | t | tdg | cx | cz | swap.
End Gates.

(** The gate names of [StateOpSet] (lines 22-30). *)
Definition StateOpSet_gates : list string :=
  ["CX"; "cx"; "cz"; "swap"; "id"; "x"; "y"; "z"; "h"; "s"; "sdg"; "t"]%string.

(** [State::gateset_] (lines 82-101). *)
Definition gateset_ : list (string * Gates.Gates) :=
  [ ("delay", Gates.id);
    ("id", Gates.id);
    ("x", Gates.x);
    ("y", Gates.y);
    ("z", Gates.z);
    ("s", Gates.s);
    ("sdg", Gates.sdg);
    ("h", Gates.h);
    ("t", Gates.t);
    ("tdg", Gates.tdg);
    ("CX", Gates.cx);
    ("cx", Gates.cx);
    ("CZ", Gates.cz);
    ("cz", Gates.cz);
    ("swap", Gates.swap) ]%string.

(** [gateset_.find(key)]; [None] is [gateset_.end()]. *)
Fixpoint stringmap_find {A} (m : list (string * A)) (key : string)
  : option A :=
  match m with
  | [] => None
  | (k, v) :: m' => if String.eqb k key then Some v else stringmap_find m' key
  end.

Inductive exception : Type :=
  | invalid_argument (what : string).

(** How a [void] method ends. *)
Inductive completion : Type :=
  | Returned
  | Thrown (e : exception).

(** ** The simulator state *)

Section Simulator.
Context {AGI : AGInterface}.

(** [class State]: the register [qreg_] of the base class and
    [num_code_qubits]. *)
Record State : Type := mkState {
  qreg_ : AGState Rest;
  num_code_qubits : Z
}.

Definition set_qreg (this : State) (q : AGState Rest) : State :=
  mkState q (num_code_qubits this).

(** [op.qubits[i]]. *)
Definition qubit (op : Op) (i : nat) : Z := nth i (qubits op) 0.

(** Lines 131-170: the [switch] of [apply_gate] on the register. *)
Definition apply_gate_switch (g : Gates.Gates) (op : Op)
           (q : AGState Rest) : AGState Rest :=
  match g with
  | Gates.id => q
  | Gates.x => applyX q (qubit op 0)
  | Gates.y => applyY q (qubit op 0)
  | Gates.z => applyZ q (qubit op 0)
  | Gates.s => applyS q (qubit op 0)
  | Gates.sdg => applyS (applyZ q (qubit op 0)) (qubit op 0)
  | Gates.h => applyH q (qubit op 0)
  | Gates.t => gadgetized_phase_gate q (qubit op 0) T_ANGLE
  | Gates.tdg => gadgetized_phase_gate q (qubit op 0) (- T_ANGLE)%R
  | Gates.cx => applyCX q (qubit op 0) (qubit op 1)
  | Gates.cz => applyCZ q (qubit op 0) (qubit op 1)
  | Gates.swap => applySwap q (qubit op 0) (qubit op 1)
  | Gates.sx => q   (* default: *)
  end.

(** [void State::apply_gate(const Operations::Op &op)]: how the call ends
    and the object after it. *)
Definition apply_gate (this : State) (op : Op) : completion * State :=
  match stringmap_find gateset_ (name op) with
  | None =>
      (Thrown (invalid_argument
                 ("Compute::State: Invalid gate operation '"
                    ++ name op ++ "'.")%string),
       this)
  | Some g => (Returned, set_qreg this (apply_gate_switch g op (qreg_ this)))
  end.

(** *** compute_probability *)

(** [std::sort] on [measured_qubits_sorted]. *)
Fixpoint sort_insert (a : Z) (l : list Z) : list Z :=
  match l with
  | [] => [a]
  | b :: l' => if a <=? b then a :: b :: l' else b :: sort_insert a l'
  end.

Fixpoint std_sort (l : list Z) : list Z :=
  match l with
  | [] => []
  | a :: l' => sort_insert a (std_sort l')
  end.

(** Lines 267-273: the first [j] with [measured_qubits[j] == w], counting
    from [j]; [idx] stays 0 when there is none. *)
Fixpoint find_idx (measured_qubits : list Z) (j : Z) (w : Z) : Z :=
  match measured_qubits with
  | [] => 0
  | m :: rest_ => if m =? w then j else find_idx rest_ (j + 1) w
  end.

(** Lines 265-278: the reordering loop. *)
Definition reorder_step (measured_qubits measured_qubits_sorted : list Z)
           (copied_ag : AGState Rest) (i : nat) : AGState Rest :=
  let w := nth i measured_qubits_sorted 0 in
  let idx := find_idx measured_qubits 0 w in
  if negb (nth i measured_qubits 0 =? Z.of_nat i)
  then applySwap copied_ag w idx
  else copied_ag.

Definition reorder_loop (measured_qubits : list Z)
           (copied_ag : AGState Rest) : AGState Rest :=
  fold_left (reorder_step measured_qubits (std_sort measured_qubits))
            (seq 0 (List.length measured_qubits)) copied_ag.

(** Lines 282-286: the outcome correction loop. *)
Definition outcome_step (outcomes : list Z) (copied_ag : AGState Rest)
           (i : nat) : AGState Rest :=
  if nth i outcomes 0 =? 1 then applyX copied_ag (Z.of_nat i)
  else copied_ag.

Definition outcome_loop (outcomes : list Z) (copied_ag : AGState Rest)
  : AGState Rest :=
  fold_left (outcome_step outcomes) (seq 0 (List.length outcomes)) copied_ag.

(** Lines 259-286: the private copy as it is handed to
    [apply_constraints]. *)
Definition prepared_copy (this : State) (measured_qubits outcomes : list Z)
  : AGState Rest :=
  let copied_ag := qreg_ this in
  outcome_loop outcomes (reorder_loop measured_qubits copied_ag).

(** Lines 299-301: [applySwap(q, q+t)] for [q < t]; [t] is the size of a
    vector, so [q + t] does not wrap. *)
Definition isolate_loop (t : Z) (copied_ag : AGState Rest) : AGState Rest :=
  fold_left (fun ag q => applySwap ag (Z.of_nat q) (Z.of_nat q + t))
            (seq 0 (Z.to_nat t)) copied_ag.

(** Lines 302-305: resize the first [n] rows to [t] bits. *)
Fixpoint resize_rows (n t : nat) (rows : list PauliRow) : list PauliRow :=
  match n, rows with
  | S k, r :: rows' =>
      Pauli.mk (bv_resize t (Pauli.X r)) (bv_resize t (Pauli.Z r))
        :: resize_rows k t rows'
  | _, _ => rows
  end.

(** Lines 299-310: isolation of the magic qubits and cleanup. *)
Definition cleaned_copy (t : Z) (copied_ag : AGState Rest) : AGState Rest :=
  let ag := isolate_loop t copied_ag in
  let ag := set_table ag (resize_rows (Z.to_nat (num_stabilizers ag))
                                      (Z.to_nat t) (table ag)) in
  let ag := set_num_qubits ag t in
  let ag := apply_T_constraints ag in
  delete_identity_magic_qubits ag.

(** Lines 314-320: the flag [all_phases_are_T] after scanning the phases
    [i .. i+n-1]. *)
Fixpoint all_phases_are_T_loop (n i : nat) (phases : list R) : bool :=
  match n with
  | O => true
  | S k =>
      if Rgt_dec (Rabs (nth i phases 0%R - T_ANGLE)) AG_CHOP_THRESHOLD
      then false
      else all_phases_are_T_loop k (S i) phases
  end.

Definition all_phases_are_T (copied_ag : AGState Rest) : bool :=
  all_phases_are_T_loop (Z.to_nat (num_qubits copied_ag)) 0
                        (magic_phases copied_ag).

(** [double State::compute_probability(measured_qubits, outcomes)]: the
    value returned ([None] when the summation loop does not finish within
    [fuel] iterations) and the object after the call. *)
Definition compute_probability (fuel : nat) (this : State)
           (measured_qubits outcomes : list Z) : option R * State :=
  let copied_ag := prepared_copy this measured_qubits outcomes in
  let w := Z.of_nat (List.length measured_qubits) in
  let t := Z.of_nat (List.length (magic_phases copied_ag)) in
  let '(copied_ag, v_pair) := apply_constraints copied_ag w t in
  if negb (fst v_pair) then (Some 0%R, this)
  else
    let v := snd v_pair in
    let copied_ag := cleaned_copy t copied_ag in
    let all_phases_are_T := all_phases_are_T copied_ag in
    if num_qubits copied_ag =? 0
    then (Some (powl 2 (IZR v - IZR w)), this)
    else
      (option_map (fun sum => (sum * powl 2 (IZR (sub64 v w)))%R)
                  (compute_algorithm_all_phases_T fuel copied_ag),
       this).

(** Names for the intermediate values of [compute_probability]: [t] at
    line 289, the result of the call at line 292, and the tableau that is
    left after line 310. *)
Definition magic_count (this : State) (measured_qubits outcomes : list Z)
  : Z :=
  Z.of_nat (List.length
              (magic_phases (prepared_copy this measured_qubits outcomes))).

Definition constraint_call (this : State) (measured_qubits outcomes : list Z)
  : AGState Rest * (bool * Z) :=
  apply_constraints (prepared_copy this measured_qubits outcomes)
                    (Z.of_nat (List.length measured_qubits))
                    (magic_count this measured_qubits outcomes).

Definition magic_subsystem (this : State) (measured_qubits outcomes : list Z)
  : AGState Rest :=
  cleaned_copy (magic_count this measured_qubits outcomes)
               (fst (constraint_call this measured_qubits outcomes)).

End Simulator.

(** ** A stand-in tableau for closed examples *)

Module Standin.

(** [v[j] = b]. *)
Fixpoint bv_set (v : list bool) (j : nat) (b : bool) : list bool :=
  match v, j with
  | [], _ => []
  | _ :: v', O => b :: v'
  | a :: v', S j' => a :: bv_set v' j' b
  end.

Definition xbit (r : PauliRow) (q : Z) : bool :=
  bv_get (Pauli.X r) (Z.to_nat q).
Definition zbit (r : PauliRow) (q : Z) : bool :=
  bv_get (Pauli.Z r) (Z.to_nat q).
Definition set_xbit (r : PauliRow) (q : Z) (b : bool) : PauliRow :=
  Pauli.mk (bv_set (Pauli.X r) (Z.to_nat q) b) (Pauli.Z r).
Definition set_zbit (r : PauliRow) (q : Z) (b : bool) : PauliRow :=
  Pauli.mk (Pauli.X r) (bv_set (Pauli.Z r) (Z.to_nat q) b).

(** The rest of the tableau object: one sign bit per row ([true] is a
    minus sign). *)
Definition signs : Type := list bool.

(** Apply a rule to every signed row. *)
Definition on_rows (rule : PauliRow -> bool -> PauliRow * bool)
           (ag : AGState signs) : AGState signs :=
  let rows := map (fun rs => rule (fst rs) (snd rs))
                  (combine (table ag) (rest ag)) in
  mkAGState (num_qubits ag) (num_stabilizers ag) (map fst rows)
            (magic_phases ag) (map snd rows).

Definition ruleX (q : Z) (r : PauliRow) (sg : bool) : PauliRow * bool :=
  (r, xorb sg (zbit r q)).
Definition ruleZ (q : Z) (r : PauliRow) (sg : bool) : PauliRow * bool :=
  (r, xorb sg (xbit r q)).
Definition ruleY (q : Z) (r : PauliRow) (sg : bool) : PauliRow * bool :=
  (r, xorb sg (xorb (xbit r q) (zbit r q))).
Definition ruleH (q : Z) (r : PauliRow) (sg : bool) : PauliRow * bool :=
  (set_zbit (set_xbit r q (zbit r q)) q (xbit r q),
   xorb sg (xbit r q && zbit r q)).
Definition ruleS (q : Z) (r : PauliRow) (sg : bool) : PauliRow * bool :=
  (set_zbit r q (xorb (zbit r q) (xbit r q)),
   xorb sg (xbit r q && zbit r q)).
Definition ruleCX (c t : Z) (r : PauliRow) (sg : bool) : PauliRow * bool :=
  (set_zbit (set_xbit r t (xorb (xbit r t) (xbit r c)))
            c (xorb (zbit r c) (zbit r t)),
   xorb sg (xbit r c && zbit r t && negb (xorb (xbit r t) (zbit r c)))).
Definition ruleSwap (a b : Z) (r : PauliRow) (sg : bool) : PauliRow * bool :=
  (set_zbit (set_zbit (set_xbit (set_xbit r a (xbit r b)) b (xbit r a))
                      a (zbit r b))
            b (zbit r a),
   sg).

(** A row that fixes the value of measured qubits: no X bit anywhere, some
    Z bit, and every Z bit among the first [w] qubits. *)
Definition definite (w : Z) (r : PauliRow) : bool :=
  negb (existsb (fun b => b) (Pauli.X r))
  && existsb (fun b => b) (Pauli.Z r)
  && negb (existsb (fun b => b) (skipn (Z.to_nat w) (Pauli.Z r))).

(** The solver succeeds when no definite row carries a minus sign, and
    reports the number of definite rows. *)
Definition solve (ag : AGState signs) (w t : Z)
  : AGState signs * (bool * Z) :=
  let fixed := filter (fun rs => definite w (fst rs))
                      (combine (table ag) (rest ag)) in
  (ag, (negb (existsb snd fixed), Z.of_nat (List.length fixed))).

(** The exponent of [i] in the product of two rows, qubit by qubit. *)
Fixpoint exponent (x1 z1 x2 z2 : list bool) : Z :=
  match x1, z1, x2, z2 with
  | a1 :: x1', c1 :: z1', a2 :: x2', c2 :: z2' =>
      (Z.b2z a2 * Z.b2z c1 * (1 + 2 * Z.b2z c2 + 2 * Z.b2z a1)
       - Z.b2z a1 * Z.b2z c2 * (1 + 2 * Z.b2z c1 + 2 * Z.b2z a2)
       + exponent x1' z1' x2' z2') mod 4
  | _, _, _, _ => 0
  end.

(** Modelled from the spec: the tableau component (ag_state.hpp and
    pauli.hpp are not part of the excerpt) for the closed examples below.
    Rows carry a sign; the Clifford gates act by the usual conjugation
    rules; a phase gate records its angle; the constraint solver is
    [solve]; the two cleanup methods leave the tableau as it is. *)
#[export] Instance tableau : AGInterface := {|
  Rest := signs;
  AG_CHOP_THRESHOLD := (1 / 10000000000)%R;
  phase_exponent := fun p1 p2 =>
    exponent (Pauli.X p1) (Pauli.Z p1) (Pauli.X p2) (Pauli.Z p2);
  applyX := fun ag q => on_rows (ruleX q) ag;
  applyY := fun ag q => on_rows (ruleY q) ag;
  applyZ := fun ag q => on_rows (ruleZ q) ag;
  applyH := fun ag q => on_rows (ruleH q) ag;
  applyS := fun ag q => on_rows (ruleS q) ag;
  applyCX := fun ag c t => on_rows (ruleCX c t) ag;
  applyCZ := fun ag c t =>
    on_rows (ruleH t) (on_rows (ruleCX c t) (on_rows (ruleH t) ag));
  applySwap := fun ag a b => on_rows (ruleSwap a b) ag;
  gadgetized_phase_gate := fun ag q angle =>
    mkAGState (num_qubits ag) (num_stabilizers ag) (table ag)
              (magic_phases ag ++ [angle]) (rest ag);
  apply_constraints := solve;
  apply_T_constraints := fun ag => ag;
  delete_identity_magic_qubits := fun ag => ag
|}.

Definition Zrow (n q : nat) : PauliRow :=
  Pauli.mk (repeat false n) (bv_set (repeat false n) q true).
Definition Xrow (n q : nat) : PauliRow :=
  Pauli.mk (bv_set (repeat false n) q true) (repeat false n).

(** One qubit in the state |0>. *)
Definition ket0 : AGState (@Rest tableau) :=
  mkAGState 1 1 [Zrow 1 0] [] [false].

(** Two qubits in the state |01>: qubit 0 is 0, qubit 1 is 1. *)
Definition ket01 : AGState (@Rest tableau) :=
  mkAGState 2 2 [Zrow 2 0; Zrow 2 1] [] [false; true].

(** Three qubits in the state |001>: qubit 2 is 1. *)
Definition ket001 : AGState (@Rest tableau) :=
  mkAGState 3 3 [Zrow 3 0; Zrow 3 1; Zrow 3 2] [] [false; false; true].

(** One unconstrained code qubit and one magic qubit of angle [angle]
    stabilised by X. *)
Definition one_magic (angle : R) : AGState (@Rest tableau) :=
  mkAGState 2 1 [Xrow 2 1] [angle] [false].

Definition sim (q : AGState (@Rest tableau)) : State := mkState q 0.

End Standin.

(** ** The wording of the specification *)

(** The classification of one qubit position of a row. *)
Definition X_only (row : PauliRow) (j : nat) : bool :=
  bv_get (Pauli.X row) j && negb (bv_get (Pauli.Z row) j).
Definition Z_only (row : PauliRow) (j : nat) : bool :=
  negb (bv_get (Pauli.X row) j) && bv_get (Pauli.Z row) j.
Definition is_Y (row : PauliRow) (j : nat) : bool :=
  bv_get (Pauli.X row) j && bv_get (Pauli.Z row) j.

(** The number of positions [j .. j+n-1] that satisfy [p]. *)
Definition count_positions (p : nat -> bool) (j n : nat) : Z :=
  Z.of_nat (List.length (filter p (seq j n))).

(** X-count and Y-count of a row over its first [n] qubits. *)
Definition X_count (row : PauliRow) (n : nat) : Z :=
  count_positions (X_only row) 0 n.
Definition Y_count (row : PauliRow) (n : nat) : Z :=
  count_positions (is_Y row) 0 n.

(** The magnitude [2^(-k/2)] of a term of weight [k]. *)
Definition magnitude (k : Z) : R := Rpower 2 (- (IZR k / 2)).

Section SpecWording.
Context {AGI : AGInterface}.

(** Multiply [r] by generator [j] when bit [j] of [g] is set. *)
Definition select (state : AGState Rest) (g : Z) (r : PauliRow) (j : nat)
  : PauliRow :=
  if Z.testbit g (Z.of_nat j)
  then pauli_add r (table_at state (Z.of_nat j)) else r.

(** The product of the generator rows selected by the bits of [g]. *)
Definition selected_product (state : AGState Rest) (g : Z) : PauliRow :=
  fold_left (select state g) (seq 0 (Z.to_nat (num_stabilizers state)))
            (pauli_identity (num_qubits state)).

End SpecWording.

(** ** The rest of the simulator: dispatch, recording, initialisation *)

Module OpType.
(** [Operations::OpType]: the two enumerators that [apply_ops] handles, and
    any other enumerator. *)
Inductive OpType : Type :=
  | gate
  | save_specific_probs
  | other (tag : nat).
End OpType.

(** [Operations::Op] with the further members that [apply_ops] and
    [apply_save_specific_probs] read; [op] carries [name] and [qubits]. *)
Record Instruction : Type := mkInstruction {
  type : OpType.OpType;
  op : Op;
  int_params : list Z;
  string_params : list string
}.

Definition is_gate (i : Instruction) : bool :=
  match type i with
  | OpType.gate => true
  | _ => false
  end.

(** The inverse of [BinaryToGray] on [n]-bit numbers: bit [j] of the result
    is the parity of the bits [j, j+1, ...] of [g]. *)
Fixpoint GrayToBinary (n : nat) (g : Z) : Z :=
  match n with
  | O => g
  | S k => Z.lxor g (GrayToBinary k (Z.shiftr g 1))
  end.

Section Dispatcher.
Context {AGI : AGInterface}.

(** [ExperimentResult] and [BaseState::save_data_average(result, key, data,
    DataSubType::list)] of the framework: the result object after the
    call. *)
Variable ExperimentResult : Type.
Variable save_data_average :
  ExperimentResult -> string -> list R -> ExperimentResult.

(** [AGState::initialize(num_qubits)] of ag_state.hpp. *)
Variable initialize : AGState Rest -> Z -> AGState Rest.

(** [void State::apply_save_specific_probs(op, result)] (lines 173-193): the
    object and the result after the call; [None] when the summation inside
    [compute_probability] does not finish within [fuel] iterations. *)
Definition apply_save_specific_probs (fuel : nat) (this : State)
           (i : Instruction) (result : ExperimentResult)
  : option (State * ExperimentResult) :=
  match compute_probability fuel this (qubits (op i)) (int_params i) with
  | (None, _) => None
  | (Some p, this') =>
      let v := [p] in
      Some (this',
            save_data_average result (nth 0 (string_params i) ""%string) v)
  end.

(** [void State::apply_ops(ops, result, rng, final_ops)] (lines 104-121):
    how the call ends, the object and the result after it.  An exception
    leaves the loop at once. *)
Fixpoint apply_ops (fuel : nat) (this : State) (result : ExperimentResult)
         (ops : list Instruction)
  : option (completion * State * ExperimentResult) :=
  match ops with
  | [] => Some (Returned, this, result)
  | i :: ops' =>
      match type i with
      | OpType.gate =>
          match apply_gate this (op i) with
          | (Returned, this') => apply_ops fuel this' result ops'
          | (Thrown e, this') => Some (Thrown e, this', result)
          end
      | OpType.save_specific_probs =>
          match apply_save_specific_probs fuel this i result with
          | None => None
          | Some (this', result') => apply_ops fuel this' result' ops'
          end
      | OpType.other _ =>
          Some (Thrown (invalid_argument
                          ("Compute::State::invalid instruction '"
                             ++ name (op i) ++ "'.")%string),
                this, result)
      end
  end.

(** [void State::initialize_qreg(uint_t num_qubits)] (lines 329-332). *)
Definition initialize_qreg (this : State) (num_qubits : Z) : State :=
  mkState (initialize (qreg_ this) num_qubits) num_qubits.

(** [void State::initialize_qreg(uint_t num_qubits, const agstate_t &state)]
    (lines 333-338). *)
Definition initialize_qreg_state (this : State) (num_qubits_ : Z)
           (state : AGState Rest) : completion * State :=
  if negb (num_qubits (qreg_ this) =? num_qubits_)
  then (Thrown
          (invalid_argument
             ("CH::State::initialize: initial state does not match "
                ++ "qubit number.")%string),
        this)
  else (Returned, set_qreg this state).

End Dispatcher.

Arguments apply_save_specific_probs {AGI ExperimentResult} save_data_average.
Arguments apply_ops {AGI ExperimentResult} save_data_average.

(** A list of qubit indices in strictly increasing order. *)
Definition increasing (l : list Z) : Prop :=
  forall i j : nat, (i < j < List.length l)%nat -> nth i l 0 < nth j l 0.

Module Samples.

(** A code qubit in the state |0> and a magic qubit of angle [angle]
    stabilised by X, on the stand-in tableau. *)
Definition zero_and_magic (angle : R) : AGState (@Rest Standin.tableau) :=
  mkAGState 2 2 [Standin.Zrow 2 0; Standin.Xrow 2 1] [angle] [false; false].

(** A tableau with 64 stabilizers (and no rows stored). *)
Definition sixty_four : AGState (@Rest Standin.tableau) :=
  mkAGState 0 64 [] [] [].

(** The default element for reading a row out of a list of rows. *)
Definition no_row : PauliRow := Pauli.mk [] [].

(** A result object that keeps the recorded entries, newest first. *)
Definition log : Type := list (string * list R).
Definition record_entry (result : log) (key : string) (data : list R) : log :=
  (key, data) :: result.

End Samples.

(** * Properties *)

(** ** Gray code *)

Lemma pos_lowbit_nonneg p : 0 <= pos_lowbit p.
Proof. induction p; cbn [pos_lowbit]; lia. Qed.

Lemma pos_lowbit_le p : 2 ^ pos_lowbit p <= Zpos p.
Proof.
  induction p as [q IH | q IH | ]; cbn [pos_lowbit].
  - simpl; lia.
  - pose proof (pos_lowbit_nonneg q).
    rewrite Z.pow_add_r by lia. change (2 ^ 1) with 2. lia.
  - simpl; lia.
Qed.

(** Bit [i] of [m xor (m-1)] is set exactly for [i <= lowbit m]. *)
Lemma lxor_pred_bits p i :
  0 <= i ->
  Z.testbit (Z.lxor (Zpos p) (Zpos p - 1)) i = (i <=? pos_lowbit p).
Proof.
  revert i. induction p as [q IH | q IH | ]; intros i Hi.
  - (* 2q+1 against 2q *)
    replace (Zpos q~1 - 1) with (2 * Zpos q) by lia.
    replace (Zpos q~1) with (2 * Zpos q + 1) by lia.
    rewrite Z.lxor_spec. cbn [pos_lowbit].
    destruct (Z.eq_dec i 0) as [-> | Hn].
    + rewrite Z.testbit_odd_0, Z.testbit_even_0. reflexivity.
    + replace i with (Z.succ (i - 1)) by lia.
      rewrite Z.testbit_odd_succ, Z.testbit_even_succ by lia.
      rewrite xorb_nilpotent. symmetry. apply Z.leb_gt. lia.
  - (* 2q against 2(q-1)+1 *)
    replace (Zpos q~0 - 1) with (2 * (Zpos q - 1) + 1) by lia.
    replace (Zpos q~0) with (2 * Zpos q) by lia.
    rewrite Z.lxor_spec. cbn [pos_lowbit].
    pose proof (pos_lowbit_nonneg q).
    destruct (Z.eq_dec i 0) as [-> | Hn].
    + rewrite Z.testbit_odd_0, Z.testbit_even_0. cbn [xorb].
      symmetry. apply Z.leb_le. lia.
    + replace i with (Z.succ (i - 1)) at 1 2 by lia.
      rewrite Z.testbit_odd_succ, Z.testbit_even_succ by lia.
      rewrite <- Z.lxor_spec, IH by lia.
      destruct (Z.leb_spec (i - 1) (pos_lowbit q));
        symmetry; [apply Z.leb_le | apply Z.leb_gt]; lia.
  - simpl. destruct i; try lia; reflexivity.
Qed.

(** Consecutive Gray codes differ in exactly the lowest set bit of the
    larger argument. *)
Lemma gray_flip_lowbit m :
  1 <= m ->
  Z.lxor (BinaryToGray m) (BinaryToGray (m - 1)) = 2 ^ lowbit m.
Proof.
  intros Hm. destruct m as [ | p | p]; try lia.
  unfold BinaryToGray, lowbit.
  pose proof (pos_lowbit_nonneg p) as Hk.
  apply Z.bits_inj'. intros i Hi.
  rewrite Z.pow2_bits_eqb by lia.
  rewrite !Z.lxor_spec, !Z.shiftr_spec by lia.
  replace (xorb (xorb (Z.testbit (Z.pos p) i) (Z.testbit (Z.pos p) (i + 1)))
                (xorb (Z.testbit (Z.pos p - 1) i)
                      (Z.testbit (Z.pos p - 1) (i + 1))))
    with (xorb (Z.testbit (Z.lxor (Z.pos p) (Z.pos p - 1)) i)
               (Z.testbit (Z.lxor (Z.pos p) (Z.pos p - 1)) (i + 1))).
  2:{ rewrite !Z.lxor_spec.
      destruct (Z.testbit (Z.pos p) i), (Z.testbit (Z.pos p) (i + 1)),
        (Z.testbit (Z.pos p - 1) i), (Z.testbit (Z.pos p - 1) (i + 1));
        reflexivity. }
  rewrite !lxor_pred_bits by lia.
  destruct (Z.leb_spec i (pos_lowbit p)), (Z.leb_spec (i + 1) (pos_lowbit p)),
    (Z.eqb_spec (pos_lowbit p) i); simpl; try reflexivity; lia.
Qed.


(** ** Bit vectors and rows *)

Lemma xorb_swap_r a b c : xorb (xorb a b) c = xorb (xorb a c) b.
Proof. destruct a, b, c; reflexivity. Qed.

Lemma xorb_cancel_r a b : xorb (xorb a b) b = a.
Proof. destruct a, b; reflexivity. Qed.

Lemma bv_add_swap r a b : bv_add (bv_add r a) b = bv_add (bv_add r b) a.
Proof.
  revert a b. induction r as [ | x r IH]; intros [ | y a] [ | z b];
    cbn [bv_add]; try reflexivity.
  rewrite xorb_swap_r, IH. reflexivity.
Qed.

Lemma bv_add_cancel r a : bv_add (bv_add r a) a = r.
Proof.
  revert a. induction r as [ | x r IH]; intros [ | y a];
    cbn [bv_add]; try reflexivity.
  rewrite xorb_cancel_r, IH. reflexivity.
Qed.

Lemma pauli_add_swap r a b :
  pauli_add (pauli_add r a) b = pauli_add (pauli_add r b) a.
Proof.
  unfold pauli_add; cbn [Pauli.X Pauli.Z].
  rewrite (bv_add_swap (Pauli.X r)), (bv_add_swap (Pauli.Z r)). reflexivity.
Qed.

Lemma pauli_add_cancel r a : pauli_add (pauli_add r a) a = r.
Proof.
  unfold pauli_add; cbn [Pauli.X Pauli.Z].
  rewrite !bv_add_cancel. destruct r; reflexivity.
Qed.

(** ** The mask and the bit search *)

Lemma bit_test_spec m j :
  0 <= j -> negb (Z.land (Z.shiftr m j) ONE =? 0) = Z.testbit m j.
Proof.
  intros Hj. unfold ONE. change 1 with (Z.ones 1).
  rewrite Z.land_ones by lia. change (2 ^ 1) with 2.
  rewrite <- Z.bit0_mod, Z.shiftr_spec by lia. cbn [Z.add].
  destruct (Z.testbit m j); reflexivity.
Qed.

Section MaskFacts.
Context {AGI : AGInterface}.

Lemma full_mask_ones n :
  (n <= 64)%nat -> full_mask_loop n = Z.ones (Z.of_nat n).
Proof.
  induction n as [ | k IH]; intros Hn; [reflexivity | ].
  cbn [full_mask_loop]. rewrite IH by lia.
  unfold shl64, ONE, uint_modulus. rewrite Z.shiftl_1_l.
  rewrite Z.mod_small
    by (split; [apply Z.pow_nonneg; lia | apply Z.pow_lt_mono_r; lia]).
  apply Z.bits_inj'. intros i Hi.
  rewrite Z.lor_spec, !Z.testbit_ones_nonneg, Z.pow2_bits_eqb by lia.
  destruct (Z.ltb_spec i (Z.of_nat k)), (Z.eqb_spec (Z.of_nat k) i),
    (Z.ltb_spec i (Z.of_nat (S k))); cbn [orb]; try reflexivity; lia.
Qed.

Lemma full_mask_bound n :
  (n <= 64)%nat -> full_mask_loop n = 2 ^ Z.of_nat n - 1.
Proof.
  intros Hn. rewrite full_mask_ones by exact Hn.
  rewrite Z.ones_equiv. lia.
Qed.

Lemma find_bit_to_flip_pow2 n j k :
  0 <= j <= k -> k < j + Z.of_nat n -> find_bit_to_flip n j (2 ^ k) = k.
Proof.
  revert j. induction n as [ | n IH]; intros j Hj Hk; [lia | ].
  cbn [find_bit_to_flip]. rewrite bit_test_spec, Z.pow2_bits_eqb by lia.
  destruct (Z.eqb_spec k j) as [-> | Hne]; [reflexivity | ].
  apply IH; lia.
Qed.

(** The generator that an iteration of the main loop adds. *)
Lemma bit_to_flip_lowbit (state : AGState Rest) mask :
  0 <= num_stabilizers state <= 64 ->
  1 <= mask <= full_mask_loop (Z.to_nat (num_stabilizers state)) ->
  0 <= lowbit mask < num_stabilizers state /\
  find_bit_to_flip (Z.to_nat (num_stabilizers state)) 0
    (Z.lxor (BinaryToGray mask) (BinaryToGray (sub64 mask 1)))
  = lowbit mask.
Proof.
  intros Hn Hm. rewrite full_mask_bound in Hm by lia.
  rewrite Z2Nat.id in Hm by lia.
  assert (Hpow : 2 ^ num_stabilizers state <= 2 ^ 64)
    by (apply Z.pow_le_mono_r; lia).
  assert (Hlow : 0 <= lowbit mask < num_stabilizers state).
  { destruct mask as [ | p | p]; try lia. cbn [lowbit].
    pose proof (pos_lowbit_nonneg p). pose proof (pos_lowbit_le p).
    split; [lia | ].
    apply (Z.pow_lt_mono_r_iff 2); lia. }
  split; [exact Hlow | ].
  unfold sub64, uint_modulus. rewrite Z.mod_small by lia.
  rewrite gray_flip_lowbit by lia.
  apply find_bit_to_flip_pow2; lia.
Qed.

End MaskFacts.

(** ** The running row of the Gray-code loop *)

Section RunningRow.
Context {AGI : AGInterface}.
Variable state : AGState Rest.

Lemma fold_select_add g l r a :
  fold_left (select state g) l (pauli_add r a)
  = pauli_add (fold_left (select state g) l r) a.
Proof.
  revert r. induction l as [ | j l IH]; intros r; [reflexivity | ].
  cbn [fold_left]. unfold select at 2 4.
  destruct (Z.testbit g (Z.of_nat j)); [ | apply IH].
  rewrite pauli_add_swap. apply IH.
Qed.

Lemma fold_select_ext g g' l r :
  (forall j, In j l -> Z.testbit g (Z.of_nat j) = Z.testbit g' (Z.of_nat j)) ->
  fold_left (select state g) l r = fold_left (select state g') l r.
Proof.
  revert r. induction l as [ | j l IH]; intros r Hbits; [reflexivity | ].
  cbn [fold_left]. unfold select at 2 4.
  rewrite (Hbits j) by (left; reflexivity).
  apply IH. intros i Hi. apply Hbits. right; exact Hi.
Qed.

Lemma toggled_bit g (k j : nat) :
  Z.testbit (Z.lxor g (2 ^ Z.of_nat k)) (Z.of_nat j)
  = xorb (Z.testbit g (Z.of_nat j)) (Nat.eqb k j).
Proof.
  rewrite Z.lxor_spec, Z.pow2_bits_eqb by lia. f_equal.
  destruct (Nat.eqb_spec k j), (Z.eqb_spec (Z.of_nat k) (Z.of_nat j));
    try reflexivity; lia.
Qed.

(** Flipping bit [k] of the selection multiplies the product by row [k]. *)
Lemma fold_select_toggle g (k : nat) l r :
  NoDup l -> In k l ->
  fold_left (select state (Z.lxor g (2 ^ Z.of_nat k))) l r
  = pauli_add (fold_left (select state g) l r) (table_at state (Z.of_nat k)).
Proof.
  revert r. induction l as [ | j l IH]; intros r Hnd Hin; [destruct Hin | ].
  inversion Hnd as [ | ? ? Hnotin Hnd']; subst.
  cbn [fold_left]. destruct (Nat.eq_dec j k) as [-> | Hne].
  - rewrite (fold_select_ext (Z.lxor g (2 ^ Z.of_nat k)) g).
    2:{ intros i Hi. rewrite toggled_bit.
        destruct (Nat.eqb_spec k i) as [-> | _]; [contradiction | ].
        apply xorb_false_r. }
    unfold select at 2 4. rewrite toggled_bit, Nat.eqb_refl.
    destruct (Z.testbit g (Z.of_nat k)); cbn [xorb negb].
    + rewrite fold_select_add, pauli_add_cancel. reflexivity.
    + rewrite fold_select_add. reflexivity.
  - destruct Hin as [Heq | Hin]; [contradiction | ].
    rewrite <- IH by assumption. f_equal.
    unfold select. rewrite toggled_bit.
    destruct (Nat.eqb_spec k j) as [-> | _]; [contradiction | ].
    rewrite xorb_false_r. reflexivity.
Qed.

Lemma selected_product_fold g :
  selected_product state g
  = fold_left (select state g) (seq 0 (Z.to_nat (num_stabilizers state)))
              (pauli_identity (num_qubits state)).
Proof. reflexivity. Qed.

Lemma selected_product_0 :
  selected_product state 0 = pauli_identity (num_qubits state).
Proof.
  rewrite selected_product_fold.
  generalize (pauli_identity (num_qubits state)).
  induction (seq 0 (Z.to_nat (num_stabilizers state))) as [ | j l IH];
    intros r; [reflexivity | ].
  cbn [fold_left]. unfold select at 2. rewrite Z.bits_0. apply IH.
Qed.

Lemma selected_product_toggle g k :
  0 <= k < num_stabilizers state ->
  selected_product state (Z.lxor g (2 ^ k))
  = pauli_add (selected_product state g) (table_at state k).
Proof.
  intros Hk. rewrite !selected_product_fold.
  rewrite <- (Z2Nat.id k) by lia.
  apply fold_select_toggle; [apply seq_NoDup | ].
  apply in_seq. lia.
Qed.

Lemma gray_step_row mask vs :
  row (gray_step state mask vs)
  = pauli_add (row vs)
      (table_at state
         (find_bit_to_flip (Z.to_nat (num_stabilizers state)) 0
            (Z.lxor (BinaryToGray mask) (BinaryToGray (sub64 mask 1))))).
Proof. reflexivity. Qed.


Lemma gray_next m :
  0 <= m ->
  BinaryToGray (m + 1) = Z.lxor (BinaryToGray m) (2 ^ lowbit (m + 1)).
Proof.
  intros Hm. rewrite <- (gray_flip_lowbit (m + 1)) by lia.
  replace (m + 1 - 1) with m by lia.
  rewrite (Z.lxor_comm (BinaryToGray (m + 1))), <- Z.lxor_assoc.
  rewrite Z.lxor_nilpotent, Z.lxor_0_l. reflexivity.
Qed.

(** After the masks [1 .. m] the running row is the product selected by the
    Gray code of [m]. *)
Lemma gray_run_row (m : nat) :
  0 <= num_stabilizers state <= 64 ->
  Z.of_nat m <= full_mask_loop (Z.to_nat (num_stabilizers state)) ->
  row (gray_run state m) = selected_product state (BinaryToGray (Z.of_nat m)).
Proof.
  intros Hn. induction m as [ | m IH]; intros Hm.
  - cbn [gray_run initial_vars row]. change (BinaryToGray (Z.of_nat 0)) with 0.
    symmetry. apply selected_product_0.
  - cbn [gray_run]. rewrite gray_step_row.
    destruct (bit_to_flip_lowbit state (Z.of_nat (S m)) Hn) as [Hk ->];
      [lia | ].
    rewrite IH by lia.
    replace (Z.of_nat (S m)) with (Z.of_nat m + 1) by lia.
    rewrite gray_next by lia.
    symmetry. apply selected_product_toggle.
    replace (Z.of_nat m + 1) with (Z.of_nat (S m)) by lia. exact Hk.
Qed.

(** The loop of line 211 finishes, and what it leaves is [gray_run]. *)
Lemma gray_loop_run (fuel k : nat) full_mask :
  0 <= full_mask < uint_modulus - 1 ->
  Z.of_nat k <= full_mask ->
  (Z.to_nat full_mask - k < fuel)%nat ->
  gray_loop fuel state full_mask (Z.of_nat (S k)) (gray_run state k)
  = Some (gray_run state (Z.to_nat full_mask)).
Proof.
  intros Hfm. revert k. induction fuel as [ | fuel IH]; intros k Hk Hfuel;
    [lia | ].
  cbn [gray_loop].
  destruct (Z.leb_spec (Z.of_nat (S k)) full_mask) as [Hle | Hgt].
  - unfold incr64. rewrite Z.mod_small by (unfold uint_modulus in *; lia).
    replace (Z.of_nat (S k) + 1) with (Z.of_nat (S (S k))) by lia.
    change (gray_step state (Z.of_nat (S k)) (gray_run state k))
      with (gray_run state (S k)).
    apply IH; lia.
  - replace (Z.to_nat full_mask) with k by lia. reflexivity.
Qed.

End RunningRow.

(** ** The weight scan *)

Lemma count_positions_S p j n :
  count_positions p j (S n)
  = (if p j then 1 else 0) + count_positions p (S j) n.
Proof.
  unfold count_positions. cbn [seq filter].
  destruct (p j); cbn [List.length]; lia.
Qed.

Lemma triple_eq (a a' b b' c c' : Z) :
  a = a' -> b = b' -> c = c' -> (a, b, c) = (a', b', c').
Proof. intros -> -> ->. reflexivity. Qed.

Lemma count_positions_0 p j : count_positions p j 0 = 0.
Proof. reflexivity. Qed.

Section WeightScan.
Context {AGI : AGInterface}.

(** With a Z-only position the scan stops with [ZCount] raised by one;
    without one it counts the X-only and the Y positions. *)
Lemma count_loop_spec n j r XCount YCount ZCount :
  if existsb (Z_only r) (seq j n)
  then exists XCount' YCount',
      count_loop n j r (XCount, YCount, ZCount)
      = (XCount', YCount', ZCount + 1)
  else count_loop n j r (XCount, YCount, ZCount)
       = (XCount + count_positions (X_only r) j n,
          YCount + count_positions (is_Y r) j n,
          ZCount).
Proof.
  revert j XCount YCount. induction n as [ | n IH]; intros j XCount YCount.
  - cbn [seq existsb count_loop]. rewrite !count_positions_0.
    apply triple_eq; lia.
  - cbn [seq existsb count_loop]. rewrite !count_positions_S.
    unfold Z_only at 1, X_only at 1, is_Y at 1.
    destruct (bv_get (Pauli.X r) j), (bv_get (Pauli.Z r) j);
      cbn [andb negb orb].
    + specialize (IH (S j) XCount (YCount + 1)).
      destruct (existsb (Z_only r) (seq (S j) n)); [exact IH | ].
      rewrite IH. apply triple_eq; lia.
    + specialize (IH (S j) (XCount + 1) YCount).
      destruct (existsb (Z_only r) (seq (S j) n)); [exact IH | ].
      rewrite IH. apply triple_eq; lia.
    + eexists _, _. reflexivity.
    + specialize (IH (S j) XCount YCount).
      destruct (existsb (Z_only r) (seq (S j) n)); [exact IH | ].
      rewrite IH. apply triple_eq; lia.
Qed.

Lemma powl_half e : powl (1 / 2) e = Rpower 2 (- e).
Proof.
  unfold powl, Rpower. f_equal.
  replace (1 / 2)%R with (/ 2)%R by lra.
  rewrite ln_Rinv by lra. ring.
Qed.

Lemma gray_step_acc (state : AGState Rest) mask vs :
  acc (gray_step state mask vs)
  = accumulate (acc vs) (phase (gray_step state mask vs))
      (count_loop (Z.to_nat (num_qubits state)) 0
                  (row (gray_step state mask vs)) (0, 0, 0)).
Proof. reflexivity. Qed.

End WeightScan.

(** C4.  One iteration of the main loop of
    [compute_algorithm_all_phases_T]: when the accumulated row has a Z-only
    position among its qubits the accumulator is left as it is (the row
    contributes 0); otherwise the magnitude [2^(-(XCount+YCount)/2)] is
    added when [(phase + YCount) mod 2] is 0 and subtracted when it is 1,
    where [XCount] and [YCount] count the X-only and the Y positions of the
    whole row and [phase] is the accumulated phase exponent. *)
Theorem all_T_term_contribution {AGI : AGInterface}
        (state : AGState Rest) (mask : Z) (vs : loop_vars) :
  let vs' := gray_step state mask vs in
  let n := Z.to_nat (num_qubits state) in
  let XCount := X_count (row vs') n in
  let YCount := Y_count (row vs') n in
  acc vs' =
    if existsb (Z_only (row vs')) (seq 0 n) then acc vs
    else if (phase vs' + YCount) mod 2 =? 0
         then (acc vs + magnitude (XCount + YCount))%R
         else (acc vs - magnitude (XCount + YCount))%R.
Proof.
  intros vs' n XCount YCount. subst vs'. rewrite gray_step_acc. fold n.
  pose proof (count_loop_spec n 0 (row (gray_step state mask vs)) 0 0 0)
    as Hscan.
  destruct (existsb (Z_only (row (gray_step state mask vs))) (seq 0 n)).
  - destruct Hscan as (x' & y' & ->). reflexivity.
  - rewrite Hscan. unfold accumulate. cbn [Z.add Z.eqb].
    fold (X_count (row (gray_step state mask vs)) n).
    fold (Y_count (row (gray_step state mask vs)) n).
    fold XCount YCount. unfold magnitude. rewrite powl_half. reflexivity.
Qed.

(** ** The summation finishes *)

Lemma compute_algorithm_all_phases_T_total {AGI : AGInterface}
      (fuel : nat) (state : AGState Rest) :
  0 <= num_stabilizers state < 64 ->
  let full_mask := full_mask_loop (Z.to_nat (num_stabilizers state)) in
  (Z.to_nat full_mask < fuel)%nat ->
  compute_algorithm_all_phases_T fuel state
  = Some (if full_mask =? 0 then 1%R
          else acc (gray_run state (Z.to_nat full_mask))).
Proof.
  intros Hn full_mask Hfuel. unfold compute_algorithm_all_phases_T.
  fold full_mask.
  assert (Hfm : 0 <= full_mask < uint_modulus - 1).
  { unfold full_mask. rewrite full_mask_bound by lia.
    rewrite Z2Nat.id by lia. unfold uint_modulus.
    assert (2 ^ num_stabilizers state < 2 ^ 64)
      by (apply Z.pow_lt_mono_r; lia).
    assert (0 < 2 ^ num_stabilizers state) by (apply Z.pow_pos_nonneg; lia).
    lia. }
  change 1 with (Z.of_nat 1).
  change (initial_vars state) with (gray_run state 0).
  rewrite gray_loop_run by (try assumption; lia). reflexivity.
Qed.


(** ** compute_probability *)

Section ProbabilityFacts.
Context {AGI : AGInterface}.
Variables (fuel : nat) (this : State) (measured_qubits outcomes : list Z).

(** The three exits of [compute_probability]. *)
Lemma compute_probability_exits :
  compute_probability fuel this measured_qubits outcomes
  = let v_pair := snd (constraint_call this measured_qubits outcomes) in
    let remaining := magic_subsystem this measured_qubits outcomes in
    if negb (fst v_pair) then (Some 0%R, this)
    else if num_qubits remaining =? 0
         then (Some (powl 2 (IZR (snd v_pair)
                             - IZR (Z.of_nat (List.length measured_qubits)))),
               this)
         else (option_map
                 (fun sum =>
                    (sum * powl 2 (IZR (sub64 (snd v_pair)
                                          (Z.of_nat
                                             (List.length
                                                measured_qubits)))))%R)
                 (compute_algorithm_all_phases_T fuel remaining),
               this).
Proof.
  unfold compute_probability, magic_subsystem, constraint_call, magic_count.
  destruct (apply_constraints
              (prepared_copy this measured_qubits outcomes)
              (Z.of_nat (List.length measured_qubits))
              (Z.of_nat
                 (List.length
                    (magic_phases
                       (prepared_copy this measured_qubits outcomes)))))
    as [copied_ag [ok v]].
  cbn [fst snd]. reflexivity.
Qed.

Lemma exit_unsatisfiable :
  fst (snd (constraint_call this measured_qubits outcomes)) = false ->
  compute_probability fuel this measured_qubits outcomes = (Some 0%R, this).
Proof.
  intros Hflag. rewrite compute_probability_exits. cbn zeta.
  rewrite Hflag. reflexivity.
Qed.

Lemma exit_no_magic v :
  snd (constraint_call this measured_qubits outcomes) = (true, v) ->
  num_qubits (magic_subsystem this measured_qubits outcomes) = 0 ->
  compute_probability fuel this measured_qubits outcomes
  = (Some (powl 2 (IZR v - IZR (Z.of_nat (List.length measured_qubits)))),
     this).
Proof.
  intros Hcall Hzero. rewrite compute_probability_exits. cbn zeta.
  rewrite Hcall, Hzero. reflexivity.
Qed.

Lemma exit_summation v :
  snd (constraint_call this measured_qubits outcomes) = (true, v) ->
  num_qubits (magic_subsystem this measured_qubits outcomes) <> 0 ->
  compute_probability fuel this measured_qubits outcomes
  = (option_map
       (fun sum =>
          (sum * powl 2 (IZR (sub64 v (Z.of_nat
                                         (List.length measured_qubits)))))%R)
       (compute_algorithm_all_phases_T
          fuel (magic_subsystem this measured_qubits outcomes)),
     this).
Proof.
  intros Hcall Hnz. rewrite compute_probability_exits. cbn zeta.
  rewrite Hcall. cbn [fst snd negb].
  destruct (Z.eqb_spec
              (num_qubits (magic_subsystem this measured_qubits outcomes)) 0)
    as [Heq | _]; [contradiction | reflexivity].
Qed.

End ProbabilityFacts.

Lemma powl_2_integer (z : Z) : powl 2 (IZR z) = powerRZ 2 z.
Proof. unfold powl. symmetry. apply powerRZ_Rpower. lra. Qed.

(** C6.  When the constraint solver reports failure, [compute_probability]
    returns 0 at once: whatever the number of magic qubits, and for every
    bound on the iterations of the summation loop, zero included, so the
    summation is not run. *)
Theorem unsatisfiable_constraint_gives_zero {AGI : AGInterface}
        (this : State) (measured_qubits outcomes : list Z) :
  fst (snd (constraint_call this measured_qubits outcomes)) = false ->
  forall fuel : nat,
    compute_probability fuel this measured_qubits outcomes
    = (Some 0%R, this).
Proof.
  intros Hflag fuel. apply exit_unsatisfiable. exact Hflag.
Qed.

Lemma unsatisfiable_constraint_gives_zero_witness :
  fst (snd (constraint_call (Standin.sim Standin.ket01) [1; 0] [1; 0]))
  = false
  /\ compute_probability 0 (Standin.sim Standin.ket01) [1; 0] [1; 0]
     = (Some 0%R, Standin.sim Standin.ket01).
Proof.
  split; [reflexivity | ].
  apply (unsatisfiable_constraint_gives_zero
           (Standin.sim Standin.ket01) [1; 0] [1; 0]).
  reflexivity.
Defined.

(** C7.  When the constraint solver succeeds with [v] and no qubit is left
    after the T-constraint reduction and the deletion of identity magic
    qubits, [compute_probability] returns [2^(v-w)], [w] being the number
    of measured qubits; this holds for every bound on the iterations of the
    summation loop, zero included, so no summation is run. *)
Theorem no_magic_gives_power_of_two {AGI : AGInterface}
        (this : State) (measured_qubits outcomes : list Z) (v : Z) :
  snd (constraint_call this measured_qubits outcomes) = (true, v) ->
  num_qubits (magic_subsystem this measured_qubits outcomes) = 0 ->
  forall fuel : nat,
    compute_probability fuel this measured_qubits outcomes
    = (Some (powerRZ 2 (v - Z.of_nat (List.length measured_qubits))), this).
Proof.
  intros Hcall Hzero fuel.
  rewrite (exit_no_magic fuel this measured_qubits outcomes v Hcall Hzero).
  rewrite <- minus_IZR, powl_2_integer. reflexivity.
Qed.

Lemma no_magic_gives_power_of_two_witness :
  compute_probability 0 (Standin.sim Standin.ket0) [0] [0]
  = (Some 1%R, Standin.sim Standin.ket0).
Proof.
  apply (no_magic_gives_power_of_two (Standin.sim Standin.ket0) [0] [0] 1);
    reflexivity.
Defined.

(** C8.  [compute_probability] leaves the object it is called on as it was:
    the register [qreg_] (table, num_qubits, num_stabilizers, magic_phases
    and the rest of the tableau) is only read, to initialise the private
    copy that all reduction steps act on. *)
Theorem compute_probability_preserves_state {AGI : AGInterface}
        (fuel : nat) (this : State) (measured_qubits outcomes : list Z) :
  snd (compute_probability fuel this measured_qubits outcomes) = this.
Proof.
  rewrite compute_probability_exits. cbn zeta.
  destruct (negb (fst (snd (constraint_call this measured_qubits outcomes))));
    [reflexivity | ].
  destruct (num_qubits (magic_subsystem this measured_qubits outcomes) =? 0);
    reflexivity.
Qed.

(** ** The closed-form path and the phase check *)

(** The angle of a [tdg] gate is not a T angle for the stand-in's chop
    threshold. *)
Lemma tdg_phase_is_not_T :
  all_phases_are_T
    (magic_subsystem (Standin.sim (Standin.one_magic (- T_ANGLE))) [0] [0])
  = false.
Proof.
  change (@all_phases_are_T_loop Standin.tableau 1 0 [(- T_ANGLE)%R]
          = false).
  cbn [all_phases_are_T_loop nth].
  destruct (Rgt_dec (Rabs (- T_ANGLE - T_ANGLE))
                    (@AG_CHOP_THRESHOLD Standin.tableau))
    as [_ | Hle]; [reflexivity | ].
  exfalso. apply Hle. unfold T_ANGLE.
  cbn [AG_CHOP_THRESHOLD Standin.tableau].
  replace (- (PI / 4) - PI / 4)%R with (- (PI / 2))%R by lra.
  rewrite Rabs_Ropp, Rabs_pos_eq; pose proof PI2_1; lra.
Qed.

(** C1.  The choice of path in [compute_probability], as the code makes it:
    when the solver succeeded, qubits remain and the flag [all_phases_are_T]
    is false (some remaining phase is further than the chop threshold from
    pi/4), the value returned is still the closed-form all-T sum, scaled by
    the power of two of line 325; the flag is never read and there is no
    general path. *)
Theorem closed_form_used_when_flag_is_false {AGI : AGInterface}
        (fuel : nat) (this : State) (measured_qubits outcomes : list Z)
        (v : Z) :
  snd (constraint_call this measured_qubits outcomes) = (true, v) ->
  num_qubits (magic_subsystem this measured_qubits outcomes) <> 0 ->
  all_phases_are_T (magic_subsystem this measured_qubits outcomes) = false ->
  fst (compute_probability fuel this measured_qubits outcomes)
  = option_map
      (fun sum =>
         (sum * powl 2 (IZR (sub64 v (Z.of_nat
                                        (List.length measured_qubits)))))%R)
      (compute_algorithm_all_phases_T
         fuel (magic_subsystem this measured_qubits outcomes)).
Proof.
  intros Hcall Hnz _.
  rewrite (exit_summation fuel this measured_qubits outcomes v Hcall Hnz).
  reflexivity.
Qed.

Lemma closed_form_used_when_flag_is_false_witness :
  all_phases_are_T
    (magic_subsystem (Standin.sim (Standin.one_magic (- T_ANGLE))) [0] [0])
  = false
  /\ fst (compute_probability
            2 (Standin.sim (Standin.one_magic (- T_ANGLE))) [0] [0])
     = Some ((1 + powl (1 / 2) (1 / 2)) * powl 2 18446744073709551615)%R.
Proof.
  split; [exact tdg_phase_is_not_T | ].
  apply (closed_form_used_when_flag_is_false
           2 (Standin.sim (Standin.one_magic (- T_ANGLE))) [0] [0] 0).
  - reflexivity.
  - discriminate.
  - exact tdg_phase_is_not_T.
Defined.

(** ** The exponent of line 325 *)

Lemma powl_2_large (e : Z) : 0 < e -> (1 < powl 2 (IZR e))%R.
Proof.
  intros He. unfold powl. rewrite <- (Rpower_O 2) by lra.
  apply Rpower_lt; [lra | ]. apply IZR_lt. exact He.
Qed.

(** C2.  The code at [v = 0], [w = 1] with one magic qubit left: the solver
    succeeded with [v = 0] for one measured qubit, the closed-form sum is
    [acc = 1 + 2^(-1/2)], and the value returned is [acc * 2^(2^64 - 1)],
    the exponent being the unsigned difference [v - w]; it is larger than 1
    and differs from [acc * 2^(v - w) = acc / 2]. *)
Theorem unsigned_exponent_leaves_unit_interval :
  let this := Standin.sim (Standin.one_magic T_ANGLE) in
  let sum := (1 + magnitude 1)%R in
  snd (constraint_call this [0] [0]) = (true, 0)
  /\ num_qubits (magic_subsystem this [0] [0]) = 1
  /\ compute_algorithm_all_phases_T 2 (magic_subsystem this [0] [0])
     = Some sum
  /\ fst (compute_probability 2 this [0] [0])
     = Some (sum * powerRZ 2 (2 ^ 64 - 1))%R
  /\ (1 < sum * powerRZ 2 (2 ^ 64 - 1))%R
  /\ (sum * powerRZ 2 (0 - 1) < 1)%R.
Proof.
  intros this sum.
  assert (Hsum : sum = (1 + powl (1 / 2) (IZR (1 + 0) / 2))%R).
  { unfold sum, magnitude. rewrite powl_half. reflexivity. }
  assert (Hmag : (0 < magnitude 1 < 1)%R).
  { unfold magnitude. split; [apply exp_pos | ].
    rewrite <- (Rpower_O 2) at 2 by lra. apply Rpower_lt; lra. }
  split; [reflexivity | ]. split; [reflexivity | ].
  split; [rewrite Hsum; reflexivity | ].
  split; [rewrite Hsum, <- powl_2_integer; reflexivity | ].
  split.
  - rewrite <- powl_2_integer.
    pose proof (powl_2_large (2 ^ 64 - 1) eq_refl) as Hbig.
    unfold sum. nra.
  - change (0 - 1) with (-1). change (powerRZ 2 (-1)) with (/ (2 ^ 1))%R.
    unfold sum. lra.
Qed.

(** ** The reordering loop *)

(** The swaps of the reordering loop for the measured qubits [1, 0] undo
    each other, and for [2, 1] no qubit is moved at all. *)
Lemma prepared_copy_descending {AGI : AGInterface} (this : State) :
  prepared_copy this [1; 0] [1; 0]
  = applyX (applySwap (applySwap (qreg_ this) 0 1) 1 0) 0
  /\ prepared_copy this [0; 1] [0; 1] = applyX (qreg_ this) 1
  /\ prepared_copy this [2; 1] [0; 0] = applySwap (qreg_ this) 1 1.
Proof. repeat split. Qed.

(** C3.  The code on the two-qubit state |01>: asking for qubit 1 to be 1
    and qubit 0 to be 0 gives 0 when the query lists the qubits as [1, 0],
    and 1 when it lists them as [0, 1]. *)
Theorem measured_qubit_order_changes_result (fuel : nat) :
  fst (compute_probability fuel (Standin.sim Standin.ket01) [1; 0] [1; 0])
  = Some 0%R
  /\ fst (compute_probability fuel (Standin.sim Standin.ket01) [0; 1] [0; 1])
     = Some 1%R
  /\ prepared_copy (Standin.sim Standin.ket01) [1; 0] [1; 0]
     = applyX Standin.ket01 0
  /\ prepared_copy (Standin.sim Standin.ket01) [0; 1] [0; 1]
     = applyX Standin.ket01 1.
Proof.
  split; [reflexivity | ]. split; [ | split; reflexivity].
  rewrite (exit_no_magic fuel (Standin.sim Standin.ket01) [0; 1] [0; 1] 2)
    by reflexivity.
  cbn [fst]. rewrite <- minus_IZR, powl_2_integer. reflexivity.
Qed.


(** ** Gate dispatch *)

Lemma stringmap_find_absent {A} (m : list (string * A)) (key : string) :
  ~ In key (map fst m) -> stringmap_find m key = None.
Proof.
  induction m as [ | [k v] m IH]; intros Hnot; [reflexivity | ].
  cbn [stringmap_find]. destruct (String.eqb_spec k key) as [-> | Hne].
  - exfalso. apply Hnot. left. reflexivity.
  - apply IH. intros Hin. apply Hnot. right. exact Hin.
Qed.

(** C9.  For an operation whose name is not a key of the gate table,
    [apply_gate] throws [invalid_argument] with a message that carries the
    name, and the object, its tableau included, is as it was before the
    call. *)
Theorem apply_gate_rejects_unknown_name {AGI : AGInterface}
        (this : State) (op : Op) :
  ~ In (name op) (map fst gateset_) ->
  apply_gate this op
  = (Thrown (invalid_argument
               ("Compute::State: Invalid gate operation '"
                  ++ name op ++ "'.")%string),
     this).
Proof.
  intros Hnot. unfold apply_gate.
  rewrite (stringmap_find_absent gateset_ (name op) Hnot). reflexivity.
Qed.

Lemma apply_gate_rejects_unknown_name_witness :
  apply_gate (Standin.sim Standin.ket0) (mkOp "sx" [0])
  = (Thrown (invalid_argument
               "Compute::State: Invalid gate operation 'sx'."%string),
     Standin.sim Standin.ket0).
Proof.
  apply (apply_gate_rejects_unknown_name
           (Standin.sim Standin.ket0) (mkOp "sx" [0])).
  cbn [name map fst gateset_ In].
  intros H; repeat (destruct H as [H | H]; [discriminate H | ]). exact H.
Defined.

(** ** The gate table and the advertised gate set *)

(** Not every key of [gateset_] is listed in [StateOpSet]: ["tdg"] is
    not. *)
Lemma gateset_name_outside_opset :
  ~ (forall g : string,
        In g (map fst gateset_) -> In g StateOpSet_gates).
Proof.
  intros Hall. specialize (Hall "tdg"%string).
  assert (Hin : In "tdg"%string StateOpSet_gates).
  { apply Hall. cbn [map fst gateset_ In]. do 9 right. left. reflexivity. }
  cbn [StateOpSet_gates In] in Hin.
  repeat (destruct Hin as [Hin | Hin]; [discriminate Hin | ]). exact Hin.
Qed.

Lemma in_by_eqb (g : string) (l : list string) :
  existsb (String.eqb g) l = true <-> In g l.
Proof.
  rewrite existsb_exists. split.
  - intros (h & Hin & Heq). apply String.eqb_eq in Heq. subst h. exact Hin.
  - intros Hin. exists g. split; [exact Hin | apply String.eqb_refl].
Qed.

(** How the two name lists compare: every gate name listed in
    [StateOpSet] is a key of [gateset_]; every key of [gateset_] other than
    ["tdg"], ["delay"] and ["CZ"] is listed in [StateOpSet]; these three
    are keys of [gateset_] that [StateOpSet] does not list. *)
Lemma opset_and_gateset_compared (g : string) :
  (In g StateOpSet_gates -> In g (map fst gateset_))
  /\ (In g (map fst gateset_) ->
      In g StateOpSet_gates \/ In g ["tdg"; "delay"; "CZ"]%string)
  /\ (In g ["tdg"; "delay"; "CZ"]%string ->
      In g (map fst gateset_) /\ ~ In g StateOpSet_gates).
Proof.
  split; [ | split].
  - intros Hin. cbn [StateOpSet_gates In] in Hin.
    repeat (destruct Hin as [<- | Hin];
            [apply in_by_eqb; reflexivity | ]).
    destruct Hin.
  - intros Hin. cbn [map fst gateset_ In] in Hin.
    repeat (destruct Hin as [<- | Hin];
            [first [left; apply in_by_eqb; reflexivity
                   | right; apply in_by_eqb; reflexivity] | ]).
    destruct Hin.
  - intros Hin. cbn [In] in Hin.
    repeat (destruct Hin as [<- | Hin];
            [split;
             [apply in_by_eqb; reflexivity
             | intros Hop; apply in_by_eqb in Hop; discriminate Hop] | ]).
    destruct Hin.
Qed.

(** C10.  The code on the three gate names that [gateset_] dispatches but
    [StateOpSet] does not list: ["CZ"] is dispatched to the same gate as
    ["cz"], and the upper-case sibling ["CX"] of ["cx"] is listed; ["delay"]
    is dispatched to the same gate as the listed ["id"]; ["tdg"] is
    dispatched beside the listed ["t"]. *)
Theorem dispatched_gates_missing_from_opset :
  (stringmap_find gateset_ "CZ" = Some Gates.cz
   /\ stringmap_find gateset_ "cz" = Some Gates.cz
   /\ ~ In "CZ"%string StateOpSet_gates
   /\ In "cz"%string StateOpSet_gates
   /\ In "CX"%string StateOpSet_gates
   /\ In "cx"%string StateOpSet_gates)
  /\ (stringmap_find gateset_ "delay" = Some Gates.id
      /\ stringmap_find gateset_ "id" = Some Gates.id
      /\ ~ In "delay"%string StateOpSet_gates
      /\ In "id"%string StateOpSet_gates)
  /\ (stringmap_find gateset_ "tdg" = Some Gates.tdg
      /\ stringmap_find gateset_ "t" = Some Gates.t
      /\ ~ In "tdg"%string StateOpSet_gates
      /\ In "t"%string StateOpSet_gates).
Proof.
  assert (Hno : forall g : string,
             existsb (String.eqb g) StateOpSet_gates = false ->
             ~ In g StateOpSet_gates).
  { intros g Hfalse Hin. apply in_by_eqb in Hin. congruence. }
  assert (Hyes : forall g : string,
             existsb (String.eqb g) StateOpSet_gates = true ->
             In g StateOpSet_gates).
  { intros g Htrue. apply in_by_eqb. exact Htrue. }
  repeat split;
    first [reflexivity | apply Hno; reflexivity | apply Hyes; reflexivity].
Qed.

(** ** Examples *)

Example BinaryToGray_first_values :
  map BinaryToGray [0; 1; 2; 3; 4; 5; 6; 7] = [0; 1; 3; 2; 6; 7; 5; 4].
Proof. reflexivity. Qed.

(** A Z-only row leaves the accumulator at its initial value 1. *)
Example Z_row_contributes_nothing :
  acc (gray_step Standin.ket0 1 (initial_vars Standin.ket0)) = 1%R.
Proof. reflexivity. Qed.

(** An X-only row of weight one adds [(1/2)^(1/2)]. *)
Example X_row_adds_its_magnitude :
  compute_algorithm_all_phases_T
    2 (magic_subsystem (Standin.sim (Standin.one_magic T_ANGLE)) [0] [0])
  = Some (1 + powl (1 / 2) (1 / 2))%R.
Proof. reflexivity. Qed.

(** The pair of queries of the specification's order-invariance test, on
    the state |001>: both prepare the event "qubit 0 is 0 and qubit 2 is 1"
    and return 1. *)
Example queries_2_0_and_0_2_agree (fuel : nat) :
  fst (compute_probability fuel (Standin.sim Standin.ket001) [2; 0] [1; 0])
  = Some (powl 2 (2 - 2))
  /\ fst (compute_probability fuel (Standin.sim Standin.ket001) [0; 2] [0; 1])
     = Some (powl 2 (2 - 2))
  /\ powl 2 (2 - 2) = 1%R.
Proof.
  split; [reflexivity | ]. split; [reflexivity | ].
  rewrite <- minus_IZR, powl_2_integer. reflexivity.
Qed.

(** * Further properties *)

(** ** The Gray code as a bijection *)

Lemma lxor_below n a b :
  0 <= n -> 0 <= a < 2 ^ n -> 0 <= b < 2 ^ n -> 0 <= Z.lxor a b < 2 ^ n.
Proof.
  intros Hn Ha Hb.
  assert (Hnn : 0 <= Z.lxor a b) by (apply Z.lxor_nonneg; lia).
  split; [exact Hnn | ].
  destruct (Z.eq_dec (Z.lxor a b) 0) as [-> | Hnz]; [lia | ].
  apply Z.log2_lt_pow2; [lia | ].
  pose proof (Z.log2_lxor a b (proj1 Ha) (proj1 Hb)) as Hlog.
  assert (Hab : 0 < a \/ 0 < b).
  { destruct (Z.eq_dec a 0) as [-> | ?]; [ | lia].
    destruct (Z.eq_dec b 0) as [-> | ?]; [ | lia].
    rewrite Z.lxor_0_l in Hnz. lia. }
  assert (Hla : Z.log2 a < n).
  { destruct (Z.eq_dec a 0) as [-> | ?].
    - cbn. destruct (Z.eq_dec n 0) as [-> | ?]; [ | lia].
      change (2 ^ 0) with 1 in *. lia.
    - apply Z.log2_lt_pow2; lia. }
  assert (Hlb : Z.log2 b < n).
  { destruct (Z.eq_dec b 0) as [-> | ?].
    - cbn. destruct (Z.eq_dec n 0) as [-> | ?]; [ | lia].
      change (2 ^ 0) with 1 in *. lia.
    - apply Z.log2_lt_pow2; lia. }
  lia.
Qed.

Lemma shiftr_1_below n a :
  0 <= n -> 0 <= a < 2 ^ (n + 1) -> 0 <= Z.shiftr a 1 < 2 ^ n.
Proof.
  intros Hn Ha. rewrite Z.shiftr_div_pow2 by lia. change (2 ^ 1) with 2.
  rewrite Z.pow_add_r in Ha by lia. change (2 ^ 1) with 2 in Ha.
  split; [apply Z.div_pos; lia | apply Z.div_lt_upper_bound; lia].
Qed.

Lemma BinaryToGray_below n m :
  0 <= n -> 0 <= m < 2 ^ n -> 0 <= BinaryToGray m < 2 ^ n.
Proof.
  intros Hn Hm. unfold BinaryToGray. apply lxor_below; try assumption.
  rewrite Z.shiftr_div_pow2 by lia. change (2 ^ 1) with 2.
  split; [apply Z.div_pos; lia | ].
  apply Z.div_lt_upper_bound; lia.
Qed.

Lemma lxor_interchange a b c d :
  Z.lxor (Z.lxor a b) (Z.lxor c d) = Z.lxor (Z.lxor a c) (Z.lxor b d).
Proof.
  apply Z.bits_inj'. intros i _. rewrite !Z.lxor_spec.
  destruct (Z.testbit a i), (Z.testbit b i), (Z.testbit c i),
    (Z.testbit d i); reflexivity.
Qed.

Lemma BinaryToGray_inj a b :
  0 <= a -> 0 <= b -> BinaryToGray a = BinaryToGray b -> a = b.
Proof.
  intros Ha Hb Heq. apply Z.lxor_eq.
  assert (Hd : Z.lxor a b = Z.shiftr (Z.lxor a b) 1).
  { apply Z.lxor_eq. rewrite Z.shiftr_lxor, lxor_interchange.
    apply Z.lxor_eq_0_iff. exact Heq. }
  assert (Hnn : 0 <= Z.lxor a b) by (apply Z.lxor_nonneg; lia).
  rewrite Z.shiftr_div_pow2 in Hd by lia. change (2 ^ 1) with 2 in Hd.
  destruct (Z.eq_dec (Z.lxor a b) 0) as [H0 | Hnz]; [exact H0 | ].
  assert (Z.lxor a b / 2 < Z.lxor a b) by (apply Z.div_lt; lia). lia.
Qed.

Lemma GrayToBinary_below (n : nat) g :
  0 <= g < 2 ^ Z.of_nat n -> 0 <= GrayToBinary n g < 2 ^ Z.of_nat n.
Proof.
  revert g. induction n as [ | n IH]; intros g Hg; [exact Hg | ].
  cbn [GrayToBinary]. rewrite Nat2Z.inj_succ, <- Z.add_1_r in *.
  apply lxor_below; [lia | exact Hg | ].
  pose proof (IH (Z.shiftr g 1) (shiftr_1_below _ g (Nat2Z.is_nonneg n) Hg)).
  rewrite Z.pow_add_r by lia. change (2 ^ 1) with 2. lia.
Qed.

Lemma BinaryToGray_GrayToBinary (n : nat) g :
  0 <= g < 2 ^ Z.of_nat n -> BinaryToGray (GrayToBinary n g) = g.
Proof.
  revert g. induction n as [ | n IH]; intros g Hg.
  - change (2 ^ Z.of_nat 0) with 1 in Hg. assert (g = 0) as -> by lia.
    reflexivity.
  - cbn [GrayToBinary]. rewrite Nat2Z.inj_succ, <- Z.add_1_r in Hg.
    pose proof (IH (Z.shiftr g 1) (shiftr_1_below _ g (Nat2Z.is_nonneg n) Hg))
      as Hrec.
    unfold BinaryToGray in *. rewrite Z.shiftr_lxor.
    set (b := GrayToBinary n (Z.shiftr g 1)) in *.
    rewrite lxor_interchange, Hrec.
    rewrite Z.lxor_assoc, Z.lxor_nilpotent, Z.lxor_0_r. reflexivity.
Qed.

(** X1.  [BinaryToGray] is injective on unsigned numbers: two different
    masks never select the same set of generators. *)
Theorem BinaryToGray_distinct (a b : Z) :
  0 <= a -> 0 <= b -> a <> b -> BinaryToGray a <> BinaryToGray b.
Proof.
  intros Ha Hb Hne Heq. apply Hne. apply BinaryToGray_inj; assumption.
Qed.

Lemma BinaryToGray_distinct_witness : BinaryToGray 5 <> BinaryToGray 6.
Proof. apply (BinaryToGray_distinct 5 6); lia. Defined.

(** X2.  On [n]-bit numbers [BinaryToGray] is a bijection: it keeps the
    width, [GrayToBinary n] undoes it, and it undoes [GrayToBinary n]. *)
Theorem BinaryToGray_round_trip (n : nat) (m : Z) :
  0 <= m < 2 ^ Z.of_nat n ->
  0 <= BinaryToGray m < 2 ^ Z.of_nat n
  /\ GrayToBinary n (BinaryToGray m) = m
  /\ BinaryToGray (GrayToBinary n m) = m
  /\ 0 <= GrayToBinary n m < 2 ^ Z.of_nat n.
Proof.
  intros Hm.
  pose proof (BinaryToGray_below (Z.of_nat n) m (Nat2Z.is_nonneg n) Hm) as Hg.
  split; [exact Hg | ]. split; [ | split].
  - apply BinaryToGray_inj; [ | lia | ].
    + apply (GrayToBinary_below n). exact Hg.
    + apply BinaryToGray_GrayToBinary. exact Hg.
  - apply BinaryToGray_GrayToBinary. exact Hm.
  - apply GrayToBinary_below. exact Hm.
Qed.

Lemma BinaryToGray_round_trip_witness :
  0 <= BinaryToGray 5 < 2 ^ Z.of_nat 3
  /\ GrayToBinary 3 (BinaryToGray 5) = 5
  /\ BinaryToGray (GrayToBinary 3 5) = 5
  /\ 0 <= GrayToBinary 3 5 < 2 ^ Z.of_nat 3.
Proof. apply (BinaryToGray_round_trip 3 5). cbn. lia. Defined.

(** X3.  With fewer than 64 stabilizers the main loop of
    [compute_algorithm_all_phases_T] finishes after it has processed the
    masks 1 to [full_mask], each once, and meets every non-empty selection
    of generators exactly once: for each [g] from 1 to [full_mask] there is
    one and only one mask of the loop whose Gray code is [g], and after that
    iteration the running row is the product of the generators selected by
    [g]. *)
Theorem gray_loop_meets_every_selection {AGI : AGInterface}
        (fuel : nat) (state : AGState Rest) (g : Z) :
  0 <= num_stabilizers state < 64 ->
  let full_mask := full_mask_loop (Z.to_nat (num_stabilizers state)) in
  (Z.to_nat full_mask < fuel)%nat ->
  1 <= g <= full_mask ->
  gray_loop fuel state full_mask 1 (initial_vars state)
  = Some (gray_run state (Z.to_nat full_mask))
  /\ exists mask,
      1 <= mask <= full_mask
      /\ BinaryToGray mask = g
      /\ row (gray_run state (Z.to_nat mask)) = selected_product state g
      /\ forall mask', 1 <= mask' <= full_mask ->
                       BinaryToGray mask' = g -> mask' = mask.
Proof.
  intros Hn full_mask Hfuel Hg. subst full_mask.
  set (n := Z.to_nat (num_stabilizers state)) in *.
  assert (Hfm : full_mask_loop n = 2 ^ Z.of_nat n - 1)
    by (apply full_mask_bound; lia).
  assert (Hpow : 0 < 2 ^ Z.of_nat n < 2 ^ 64).
  { split; [apply Z.pow_pos_nonneg; lia | apply Z.pow_lt_mono_r; lia]. }
  split.
  { change 1 with (Z.of_nat 1).
    change (initial_vars state) with (gray_run state 0).
    apply gray_loop_run; [unfold uint_modulus; lia | lia | lia]. }
  assert (Hg' : 0 <= g < 2 ^ Z.of_nat n) by lia.
  pose proof (GrayToBinary_below n g Hg') as Hrange.
  pose proof (BinaryToGray_GrayToBinary n g Hg') as Hback.
  exists (GrayToBinary n g).
  assert (Hpos : 1 <= GrayToBinary n g).
  { destruct (Z.eq_dec (GrayToBinary n g) 0) as [H0 | ?]; [ | lia].
    rewrite H0 in Hback. change (BinaryToGray 0) with 0 in Hback. lia. }
  split; [lia | ]. split; [exact Hback | ]. split.
  - rewrite gray_run_row;
      [ | lia | rewrite Z2Nat.id by lia; fold n; lia].
    rewrite Z2Nat.id by lia. rewrite Hback. reflexivity.
  - intros mask' Hm' Heq. apply BinaryToGray_inj; try lia.
Qed.

Lemma gray_loop_meets_every_selection_witness :
  gray_loop 4 Standin.ket01 3 1 (initial_vars Standin.ket01)
  = Some (gray_run Standin.ket01 3)
  /\ exists mask,
      1 <= mask <= 3
      /\ BinaryToGray mask = 2
      /\ row (gray_run Standin.ket01 (Z.to_nat mask))
         = selected_product Standin.ket01 2
      /\ forall mask', 1 <= mask' <= 3 ->
                       BinaryToGray mask' = 2 -> mask' = mask.
Proof.
  apply (gray_loop_meets_every_selection 4 Standin.ket01 2).
  - cbn [num_stabilizers Standin.ket01]. lia.
  - change (3 < 4)%nat. lia.
  - change (1 <= 2 <= 3). lia.
Defined.

(** ** How long the summation runs *)

Section LoopLength.
Context {AGI : AGInterface}.
Variable state : AGState Rest.

Lemma gray_loop_short (fuel k : nat) full_mask vs :
  0 <= full_mask < uint_modulus - 1 ->
  (Z.of_nat fuel <= full_mask - Z.of_nat k) ->
  gray_loop fuel state full_mask (Z.of_nat (S k)) vs = None.
Proof.
  intros Hfm. revert k vs. induction fuel as [ | fuel IH]; intros k vs Hk;
    [reflexivity | ].
  cbn [gray_loop].
  destruct (Z.leb_spec (Z.of_nat (S k)) full_mask) as [_ | Hgt]; [ | lia].
  unfold incr64. rewrite Z.mod_small by (unfold uint_modulus in *; lia).
  replace (Z.of_nat (S k) + 1) with (Z.of_nat (S (S k))) by lia.
  apply IH. lia.
Qed.

Lemma gray_loop_endless (fuel : nat) mask vs :
  0 <= mask < uint_modulus ->
  gray_loop fuel state (uint_modulus - 1) mask vs = None.
Proof.
  revert mask vs. induction fuel as [ | fuel IH]; intros mask vs Hmask;
    [reflexivity | ].
  cbn [gray_loop].
  destruct (Z.leb_spec mask (uint_modulus - 1)) as [_ | Hgt]; [ | lia].
  apply IH. unfold incr64. apply Z.mod_pos_bound. reflexivity.
Qed.

End LoopLength.

(** X4.  With fewer than 64 stabilizers the main loop of
    [compute_algorithm_all_phases_T] makes exactly [2^n - 1] iterations:
    the function returns a value as soon as the bound on the iterations
    exceeds [2^n - 1], and not before; the value is 1 when there is no
    stabilizer and the accumulator after the last mask otherwise. *)
Theorem summation_runs_all_masks {AGI : AGInterface}
        (fuel : nat) (state : AGState Rest) :
  0 <= num_stabilizers state < 64 ->
  let n := num_stabilizers state in
  compute_algorithm_all_phases_T fuel state
  = if Z.of_nat fuel <=? 2 ^ n - 1 then None
    else Some (if n =? 0 then 1%R
               else acc (gray_run state (Z.to_nat (2 ^ n - 1)))).
Proof.
  intros Hn n. subst n.
  assert (Hfm : full_mask_loop (Z.to_nat (num_stabilizers state))
                = 2 ^ num_stabilizers state - 1).
  { rewrite full_mask_bound by lia. rewrite Z2Nat.id by lia. reflexivity. }
  assert (Hpow : 0 < 2 ^ num_stabilizers state < 2 ^ 64).
  { split; [apply Z.pow_pos_nonneg; lia | apply Z.pow_lt_mono_r; lia]. }
  destruct (Z.leb_spec (Z.of_nat fuel) (2 ^ num_stabilizers state - 1))
    as [Hshort | Hlong].
  - unfold compute_algorithm_all_phases_T. rewrite Hfm.
    change 1 with (Z.of_nat 1).
    rewrite gray_loop_short; [reflexivity | unfold uint_modulus; lia | lia].
  - rewrite compute_algorithm_all_phases_T_total by lia.
    rewrite Hfm. f_equal.
    destruct (Z.eqb_spec (num_stabilizers state) 0) as [-> | Hnz];
      [reflexivity | ].
    destruct (Z.eqb_spec (2 ^ num_stabilizers state - 1) 0) as [H0 | _];
      [ | reflexivity].
    exfalso.
    assert (2 ^ 1 <= 2 ^ num_stabilizers state)
      by (apply Z.pow_le_mono_r; lia).
    change (2 ^ 1) with 2 in *. lia.
Qed.

Lemma summation_runs_all_masks_witness :
  compute_algorithm_all_phases_T 3 Standin.ket01 = None
  /\ compute_algorithm_all_phases_T 4 Standin.ket01 = Some 1%R.
Proof.
  split.
  - apply (summation_runs_all_masks 3 Standin.ket01).
    cbn [num_stabilizers Standin.ket01]. lia.
  - apply (summation_runs_all_masks 4 Standin.ket01).
    cbn [num_stabilizers Standin.ket01]. lia.
Defined.

(** X5.  With exactly 64 stabilizers [full_mask] is [2^64 - 1], the test
    [mask <= full_mask] never fails, and [compute_algorithm_all_phases_T]
    does not return, whatever the bound on the iterations. *)
Theorem summation_with_64_stabilizers_never_returns {AGI : AGInterface}
        (state : AGState Rest) :
  num_stabilizers state = 64 ->
  forall fuel : nat, compute_algorithm_all_phases_T fuel state = None.
Proof.
  intros Hn fuel. unfold compute_algorithm_all_phases_T. rewrite Hn.
  rewrite full_mask_bound by (change (Z.to_nat 64) with 64%nat; lia).
  change (2 ^ Z.of_nat (Z.to_nat 64) - 1) with (uint_modulus - 1).
  rewrite gray_loop_endless; [reflexivity | unfold uint_modulus; lia].
Qed.

Lemma summation_with_64_stabilizers_never_returns_witness :
  compute_algorithm_all_phases_T 1000 Samples.sixty_four = None.
Proof.
  apply (summation_with_64_stabilizers_never_returns Samples.sixty_four).
  reflexivity.
Defined.

(** ** Bounds and invariants of the summation *)

Lemma powl_half_le_1 (e : R) : (0 <= e)%R -> (0 < powl (1 / 2) e <= 1)%R.
Proof.
  intros He. rewrite powl_half. split; [apply exp_pos | ].
  rewrite <- (Rpower_O 2) by lra. apply Rle_Rpower; lra.
Qed.

Section SummationBounds.
Context {AGI : AGInterface}.

Lemma count_loop_bounds n j r XCount YCount ZCount :
  let '(XCount', YCount', ZCount') :=
    count_loop n j r (XCount, YCount, ZCount) in
  XCount <= XCount' /\ YCount <= YCount'
  /\ ZCount <= ZCount' <= ZCount + 1
  /\ (XCount' - XCount) + (YCount' - YCount) + (ZCount' - ZCount)
     <= Z.of_nat n.
Proof.
  revert j XCount YCount. induction n as [ | n IH]; intros j XCount YCount.
  - cbn [count_loop]. lia.
  - cbn [count_loop].
    destruct (bv_get (Pauli.X r) j), (bv_get (Pauli.Z r) j);
      cbn [andb negb].
    + specialize (IH (S j) XCount (YCount + 1)).
      destruct (count_loop n (S j) r (XCount, YCount + 1, ZCount))
        as [[x' y'] z']. lia.
    + specialize (IH (S j) (XCount + 1) YCount).
      destruct (count_loop n (S j) r (XCount + 1, YCount, ZCount))
        as [[x' y'] z']. lia.
    + lia.
    + specialize (IH (S j) XCount YCount).
      destruct (count_loop n (S j) r (XCount, YCount, ZCount))
        as [[x' y'] z']. lia.
Qed.

Lemma accumulate_step_bound a ph XCount YCount ZCount :
  0 <= XCount + YCount ->
  (Rabs (accumulate a ph (XCount, YCount, ZCount) - a) <= 1)%R.
Proof.
  intros Hnn. unfold accumulate.
  assert (Hp : (0 < powl (1 / 2) (IZR (XCount + YCount) / 2) <= 1)%R).
  { apply powl_half_le_1.
    assert (0 <= IZR (XCount + YCount))%R by (apply IZR_le; exact Hnn). lra. }
  destruct (ZCount =? 0).
  - destruct ((ph + YCount) mod 2 =? 0).
    + replace (a + powl (1 / 2) (IZR (XCount + YCount) / 2) - a)%R
        with (powl (1 / 2) (IZR (XCount + YCount) / 2)) by ring.
      rewrite Rabs_pos_eq; lra.
    + replace (a - powl (1 / 2) (IZR (XCount + YCount) / 2) - a)%R
        with (- powl (1 / 2) (IZR (XCount + YCount) / 2))%R by ring.
      rewrite Rabs_Ropp, Rabs_pos_eq; lra.
  - replace (a - a)%R with 0%R by ring. rewrite Rabs_R0. lra.
Qed.

Lemma gray_step_acc_bound (state : AGState Rest) mask vs :
  (Rabs (acc (gray_step state mask vs) - acc vs) <= 1)%R.
Proof.
  rewrite gray_step_acc.
  pose proof (count_loop_bounds (Z.to_nat (num_qubits state)) 0
                (row (gray_step state mask vs)) 0 0 0) as Hb.
  destruct (count_loop (Z.to_nat (num_qubits state)) 0
              (row (gray_step state mask vs)) (0, 0, 0)) as [[x y] z].
  apply accumulate_step_bound. lia.
Qed.

Lemma gray_run_acc_bound (state : AGState Rest) (m : nat) :
  (Rabs (acc (gray_run state m) - 1) <= IZR (Z.of_nat m))%R.
Proof.
  induction m as [ | m IH].
  - cbn [gray_run initial_vars acc Z.of_nat].
    replace (1 - 1)%R with 0%R by ring. rewrite Rabs_R0. lra.
  - cbn [gray_run].
    pose proof (gray_step_acc_bound state (Z.of_nat (S m)) (gray_run state m))
      as Hstep.
    set (a' := acc (gray_step state (Z.of_nat (S m)) (gray_run state m))) in *.
    set (a := acc (gray_run state m)) in *.
    rewrite Nat2Z.inj_succ, succ_IZR.
    replace (a' - 1)%R with ((a' - a) + (a - 1))%R by ring.
    eapply Rle_trans; [apply Rabs_triang | lra].
Qed.

Lemma gray_step_ext (s1 s2 : AGState Rest) mask vs :
  num_qubits s1 = num_qubits s2 ->
  num_stabilizers s1 = num_stabilizers s2 ->
  table s1 = table s2 ->
  gray_step s1 mask vs = gray_step s2 mask vs.
Proof.
  intros Hq Hs Ht. unfold gray_step, table_at. rewrite Hq, Hs, Ht.
  reflexivity.
Qed.

Lemma gray_loop_ext (s1 s2 : AGState Rest) fuel full_mask mask vs :
  num_qubits s1 = num_qubits s2 ->
  num_stabilizers s1 = num_stabilizers s2 ->
  table s1 = table s2 ->
  gray_loop fuel s1 full_mask mask vs = gray_loop fuel s2 full_mask mask vs.
Proof.
  intros Hq Hs Ht. revert mask vs.
  induction fuel as [ | fuel IH]; intros mask vs; [reflexivity | ].
  cbn [gray_loop]. destruct (mask <=? full_mask); [ | reflexivity].
  rewrite (gray_step_ext s1 s2) by assumption. apply IH.
Qed.

End SummationBounds.

(** X6.  [compute_algorithm_all_phases_T] changes its accumulator by at
    most 1 per mask: with [n < 64] stabilizers the value it returns differs
    from 1 by at most [2^n - 1], so it lies between [2 - 2^n] and [2^n]. *)
Theorem summation_value_bound {AGI : AGInterface}
        (fuel : nat) (state : AGState Rest) :
  0 <= num_stabilizers state < 64 ->
  2 ^ num_stabilizers state - 1 < Z.of_nat fuel ->
  exists sum : R,
    compute_algorithm_all_phases_T fuel state = Some sum
    /\ (Rabs (sum - 1) <= IZR (2 ^ num_stabilizers state - 1))%R.
Proof.
  intros Hn Hfuel.
  assert (Hfm : full_mask_loop (Z.to_nat (num_stabilizers state))
                = 2 ^ num_stabilizers state - 1).
  { rewrite full_mask_bound by lia. rewrite Z2Nat.id by lia. reflexivity. }
  assert (Hpow : 0 < 2 ^ num_stabilizers state)
    by (apply Z.pow_pos_nonneg; lia).
  rewrite compute_algorithm_all_phases_T_total by lia.
  rewrite Hfm. eexists. split; [reflexivity | ].
  destruct (2 ^ num_stabilizers state - 1 =? 0).
  - replace (1 - 1)%R with 0%R by ring. rewrite Rabs_R0.
    apply IZR_le. lia.
  - pose proof (gray_run_acc_bound
                  state (Z.to_nat (2 ^ num_stabilizers state - 1))) as Hb.
    rewrite Z2Nat.id in Hb by lia. exact Hb.
Qed.

Lemma summation_value_bound_witness :
  exists sum : R,
    compute_algorithm_all_phases_T
      4 (magic_subsystem
           (Standin.sim (Samples.zero_and_magic T_ANGLE)) [0] [0])
    = Some sum
    /\ (Rabs (sum - 1) <= IZR (2 ^ 2 - 1))%R.
Proof.
  apply (summation_value_bound
           4 (magic_subsystem
                (Standin.sim (Samples.zero_and_magic T_ANGLE)) [0] [0])).
  - change (0 <= 2 < 64). lia.
  - change (2 ^ 2 - 1 < 4). lia.
Defined.

(** X7.  [compute_algorithm_all_phases_T] reads the tableau only through
    [num_qubits], [num_stabilizers] and [table]: two tableaux that agree on
    these give the same result, whatever their magic phases and the rest of
    the object. *)
Theorem summation_ignores_magic_phases {AGI : AGInterface}
        (fuel : nat) (s1 s2 : AGState Rest) :
  num_qubits s1 = num_qubits s2 ->
  num_stabilizers s1 = num_stabilizers s2 ->
  table s1 = table s2 ->
  compute_algorithm_all_phases_T fuel s1
  = compute_algorithm_all_phases_T fuel s2.
Proof.
  intros Hq Hs Ht. unfold compute_algorithm_all_phases_T, initial_vars.
  rewrite Hq, Hs. rewrite (gray_loop_ext s1 s2) by assumption.
  reflexivity.
Qed.

Lemma summation_ignores_magic_phases_witness :
  compute_algorithm_all_phases_T 2 (Standin.one_magic T_ANGLE)
  = compute_algorithm_all_phases_T 2 (Standin.one_magic (- T_ANGLE)).
Proof.
  apply (summation_ignores_magic_phases
           2 (Standin.one_magic T_ANGLE) (Standin.one_magic (- T_ANGLE)));
    reflexivity.
Defined.

(** X10.  The weight scan cannot overflow its counters: [ZCount] is 0 or 1,
    and [XCount + YCount + ZCount] is at most the number of qubits
    scanned. *)
Theorem count_loop_counters_bounded (n : nat) (r : PauliRow) :
  let '(XCount, YCount, ZCount) := count_loop n 0 r (0, 0, 0) in
  0 <= XCount /\ 0 <= YCount /\ 0 <= ZCount <= 1
  /\ XCount + YCount + ZCount <= Z.of_nat n.
Proof.
  pose proof (count_loop_bounds n 0 r 0 0 0) as Hb.
  destruct (count_loop n 0 r (0, 0, 0)) as [[x y] z]. lia.
Qed.

(** ** The bit search *)

Lemma find_bit_to_flip_from (n : nat) (j0 m : Z) :
  0 <= j0 ->
  (exists j,
      j0 <= j < j0 + Z.of_nat n
      /\ Z.testbit m j = true
      /\ (forall i, j0 <= i < j -> Z.testbit m i = false)
      /\ find_bit_to_flip n j0 m = j)
  \/ ((forall i, j0 <= i < j0 + Z.of_nat n -> Z.testbit m i = false)
      /\ find_bit_to_flip n j0 m = 0).
Proof.
  revert j0. induction n as [ | n IH]; intros j0 Hj0.
  - right. split; [intros i Hi; lia | reflexivity].
  - cbn [find_bit_to_flip]. rewrite bit_test_spec by exact Hj0.
    destruct (Z.testbit m j0) eqn:Hbit.
    + left. exists j0. repeat split; try lia. exact Hbit.
    + destruct (IH (j0 + 1)) as [(j & Hj & Hset & Hlow & Hfind) | [Hnone Hz]];
        [lia | | ].
      * left. exists j. repeat split; try lia; try assumption.
        intros i Hi. destruct (Z.eq_dec i j0) as [-> | Hne];
          [exact Hbit | apply Hlow; lia].
      * right. split; [ | exact Hz].
        intros i Hi. destruct (Z.eq_dec i j0) as [-> | Hne];
          [exact Hbit | apply Hnone; lia].
Qed.

(** X9.  The search of lines 213-219 returns the lowest set bit of its
    argument among the first [n] bits; when none of them is set it returns
    0, the initial value of [bit_to_flip]. *)
Theorem find_bit_to_flip_lowest (n : nat) (m : Z) :
  (exists j,
      0 <= j < Z.of_nat n
      /\ Z.testbit m j = true
      /\ (forall i, 0 <= i < j -> Z.testbit m i = false)
      /\ find_bit_to_flip n 0 m = j)
  \/ ((forall i, 0 <= i < Z.of_nat n -> Z.testbit m i = false)
      /\ find_bit_to_flip n 0 m = 0).
Proof.
  destruct (find_bit_to_flip_from n 0 m) as [Hfound | Hnone]; [lia | | ].
  - left. exact Hfound.
  - right. exact Hnone.
Qed.

(** ** More on compute_probability *)

(** X11.  At the exit of line 325 the unsigned difference [v - w] is the
    true difference whenever the solver's [v] is at least the number [w] of
    measured qubits: the value returned is then the closed-form sum times
    [2^(v-w)]. *)
Theorem summation_exit_with_large_rank {AGI : AGInterface}
        (fuel : nat) (this : State) (measured_qubits outcomes : list Z)
        (v : Z) :
  snd (constraint_call this measured_qubits outcomes) = (true, v) ->
  num_qubits (magic_subsystem this measured_qubits outcomes) <> 0 ->
  Z.of_nat (List.length measured_qubits) <= v < uint_modulus ->
  fst (compute_probability fuel this measured_qubits outcomes)
  = option_map
      (fun sum =>
         (sum * powerRZ 2 (v - Z.of_nat (List.length measured_qubits)))%R)
      (compute_algorithm_all_phases_T
         fuel (magic_subsystem this measured_qubits outcomes)).
Proof.
  intros Hcall Hnz Hv.
  rewrite (exit_summation fuel this measured_qubits outcomes v Hcall Hnz).
  cbn [fst]. unfold sub64. rewrite Z.mod_small by lia.
  destruct (compute_algorithm_all_phases_T
              fuel (magic_subsystem this measured_qubits outcomes));
    [ | reflexivity].
  cbn [option_map]. rewrite powl_2_integer. reflexivity.
Qed.

Lemma summation_exit_with_large_rank_witness :
  fst (compute_probability
         4 (Standin.sim (Samples.zero_and_magic T_ANGLE)) [0] [0])
  = Some ((1 + powl (1 / 2) (0 / 2) + powl (1 / 2) (1 / 2)
           + powl (1 / 2) (1 / 2)) * powerRZ 2 (1 - 1))%R.
Proof.
  apply (summation_exit_with_large_rank
           4 (Standin.sim (Samples.zero_and_magic T_ANGLE)) [0] [0] 1).
  - reflexivity.
  - discriminate.
  - change (1 <= 1 < uint_modulus). unfold uint_modulus. lia.
Defined.

(** X12.  [compute_probability] returns a value once the bound on the
    iterations of the summation exceeds [2^n - 1], [n < 64] being the
    number of stabilizers of the tableau left after the cleanup. *)
Theorem compute_probability_returns {AGI : AGInterface}
        (fuel : nat) (this : State) (measured_qubits outcomes : list Z) :
  let n := num_stabilizers (magic_subsystem this measured_qubits outcomes) in
  0 <= n < 64 ->
  2 ^ n - 1 < Z.of_nat fuel ->
  exists p : R,
    fst (compute_probability fuel this measured_qubits outcomes) = Some p.
Proof.
  intros n Hn Hfuel. subst n. rewrite compute_probability_exits. cbn zeta.
  destruct (negb (fst (snd (constraint_call this measured_qubits outcomes))));
    [eexists; reflexivity | ].
  destruct (num_qubits (magic_subsystem this measured_qubits outcomes) =? 0);
    [eexists; reflexivity | ].
  rewrite compute_algorithm_all_phases_T_total.
  - cbn [fst option_map]. eexists; reflexivity.
  - exact Hn.
  - rewrite full_mask_bound by lia. rewrite Z2Nat.id by lia. lia.
Qed.

Lemma compute_probability_returns_witness :
  exists p : R,
    fst (compute_probability
           4 (Standin.sim (Samples.zero_and_magic T_ANGLE)) [0] [0])
    = Some p.
Proof.
  apply (compute_probability_returns
           4 (Standin.sim (Samples.zero_and_magic T_ANGLE)) [0] [0]).
  - change (0 <= 2 < 64). lia.
  - change (2 ^ 2 - 1 < 4). lia.
Defined.

(** ** The reordering and outcome loops *)

Lemma fold_left_same {A B} (f g : A -> B -> A) (l : list B) (a : A) :
  (forall x b, In b l -> f x b = g x b) ->
  fold_left f l a = fold_left g l a.
Proof.
  revert a. induction l as [ | b l IH]; intros a Hfg; [reflexivity | ].
  cbn [fold_left]. rewrite Hfg by (left; reflexivity).
  apply IH. intros x c Hc. apply Hfg. right. exact Hc.
Qed.

Lemma fold_left_fixed {A B} (f : A -> B -> A) (l : list B) (a : A) :
  (forall x b, In b l -> f x b = x) -> fold_left f l a = a.
Proof.
  revert a. induction l as [ | b l IH]; intros a Hf; [reflexivity | ].
  cbn [fold_left]. rewrite Hf by (left; reflexivity).
  apply IH. intros x c Hc. apply Hf. right. exact Hc.
Qed.

Lemma increasing_tail a l : increasing (a :: l) -> increasing l.
Proof.
  intros Hinc i j Hij. apply (Hinc (S i) (S j)). cbn [List.length]. lia.
Qed.

Lemma increasing_head a l (j : nat) :
  increasing (a :: l) -> (j < List.length l)%nat -> a < nth j l 0.
Proof.
  intros Hinc Hj. apply (Hinc O (S j)). cbn [List.length]. lia.
Qed.

Lemma std_sort_increasing l : increasing l -> std_sort l = l.
Proof.
  induction l as [ | a l IH]; intros Hinc; [reflexivity | ].
  cbn [std_sort]. rewrite IH by (eapply increasing_tail; exact Hinc).
  destruct l as [ | b l]; [reflexivity | ].
  cbn [sort_insert].
  pose proof (increasing_head a (b :: l) 0 Hinc) as Hab.
  cbn [List.length nth] in Hab.
  destruct (Z.leb_spec a b) as [_ | Hgt]; [reflexivity | lia].
Qed.

Lemma find_idx_increasing l (j0 : Z) (i : nat) :
  increasing l -> (i < List.length l)%nat ->
  find_idx l j0 (nth i l 0) = j0 + Z.of_nat i.
Proof.
  revert j0 i. induction l as [ | a l IH]; intros j0 i Hinc Hi;
    [cbn [List.length] in Hi; lia | ].
  cbn [find_idx]. destruct i as [ | i].
  - cbn [nth]. rewrite Z.eqb_refl. lia.
  - cbn [nth]. cbn [List.length] in Hi.
    pose proof (increasing_head a l i Hinc) as Hlt.
    destruct (Z.eqb_spec a (nth i l 0)) as [Heq | _]; [lia | ].
    rewrite IH; [lia | eapply increasing_tail; exact Hinc | lia].
Qed.

Lemma fold_left_filter {A B} (p : B -> bool) (f : A -> B -> A)
      (l : list B) (a : A) :
  fold_left (fun x b => if p b then f x b else x) l a
  = fold_left f (filter p l) a.
Proof.
  revert a. induction l as [ | b l IH]; intros a; [reflexivity | ].
  cbn [fold_left filter]. destruct (p b); cbn [fold_left]; apply IH.
Qed.

(** X13.  For measured qubits listed in strictly increasing order the
    reordering loop of lines 265-278 swaps the qubit [measured_qubits[i]]
    with position [i], for every [i] where the two differ, in the order of
    the list. *)
Theorem reorder_loop_increasing {AGI : AGInterface}
        (measured_qubits : list Z) (copied_ag : AGState Rest) :
  increasing measured_qubits ->
  reorder_loop measured_qubits copied_ag
  = fold_left
      (fun ag i => applySwap ag (nth i measured_qubits 0) (Z.of_nat i))
      (filter (fun i => negb (nth i measured_qubits 0 =? Z.of_nat i))
              (seq 0 (List.length measured_qubits)))
      copied_ag.
Proof.
  intros Hinc. unfold reorder_loop.
  rewrite std_sort_increasing by exact Hinc.
  rewrite <- fold_left_filter. apply fold_left_same.
  intros ag i Hi. apply in_seq in Hi. unfold reorder_step.
  rewrite find_idx_increasing by (try exact Hinc; lia). reflexivity.
Qed.

Lemma reorder_loop_increasing_witness :
  reorder_loop [1; 2] Standin.ket001
  = applySwap (applySwap Standin.ket001 1 0) 2 1.
Proof.
  apply (reorder_loop_increasing [1; 2] Standin.ket001).
  intros i j Hij. cbn [List.length] in Hij.
  assert (i = 0%nat /\ j = 1%nat) as [-> ->] by lia.
  cbn [nth]. lia.
Defined.

(** X14.  When every measured qubit already sits at its position
    ([measured_qubits[i] = i] for all [i]) the reordering loop performs no
    swap. *)
Theorem reorder_loop_in_place {AGI : AGInterface}
        (measured_qubits : list Z) (copied_ag : AGState Rest) :
  (forall i : nat, (i < List.length measured_qubits)%nat ->
                   nth i measured_qubits 0 = Z.of_nat i) ->
  reorder_loop measured_qubits copied_ag = copied_ag.
Proof.
  intros Hid. unfold reorder_loop. apply fold_left_fixed.
  intros ag i Hi. apply in_seq in Hi. unfold reorder_step.
  rewrite Hid by lia. rewrite Z.eqb_refl. reflexivity.
Qed.

Lemma reorder_loop_in_place_witness :
  reorder_loop [0; 1; 2] Standin.ket001 = Standin.ket001.
Proof.
  apply (reorder_loop_in_place [0; 1; 2] Standin.ket001).
  intros i Hi. cbn [List.length] in Hi.
  destruct i as [ | [ | [ | i]]]; try reflexivity. lia.
Defined.

(** X15.  The outcome loop of lines 282-286 applies X to exactly the
    positions whose requested outcome is 1, in increasing order; every
    other outcome value is treated like 0. *)
Theorem outcome_loop_flips_ones {AGI : AGInterface}
        (outcomes : list Z) (copied_ag : AGState Rest) :
  outcome_loop outcomes copied_ag
  = fold_left (fun ag i => applyX ag (Z.of_nat i))
              (filter (fun i => nth i outcomes 0 =? 1)
                      (seq 0 (List.length outcomes)))
              copied_ag.
Proof.
  unfold outcome_loop. rewrite <- fold_left_filter. reflexivity.
Qed.

(** ** More on gate dispatch *)

Lemma stringmap_find_present {A} (m : list (string * A)) (key : string) :
  In key (map fst m) -> exists v, stringmap_find m key = Some v.
Proof.
  induction m as [ | [k v] m IH]; intros Hin; [destruct Hin | ].
  cbn [stringmap_find]. destruct (String.eqb_spec k key) as [-> | Hne].
  - exists v. reflexivity.
  - destruct Hin as [Heq | Hin]; [contradiction | ]. apply IH. exact Hin.
Qed.

(** X16.  [apply_gate] returns normally exactly for the operations whose
    name is a key of [gateset_]; the look-up is case sensitive and there is
    no other way to fail. *)
Theorem apply_gate_returns_iff_known {AGI : AGInterface}
        (this : State) (op : Op) :
  fst (apply_gate this op) = Returned <-> In (name op) (map fst gateset_).
Proof.
  unfold apply_gate. split.
  - intros Hret.
    destruct (in_dec string_dec (name op) (map fst gateset_)) as [Hin | Hnot];
      [exact Hin | ].
    rewrite (stringmap_find_absent gateset_ (name op) Hnot) in Hret.
    discriminate Hret.
  - intros Hin.
    destruct (stringmap_find_present gateset_ (name op) Hin) as [g ->].
    reflexivity.
Qed.

(** X17.  [apply_gate] reads nothing of an operation but its name and its
    first two qubit indices: operations that agree on these have the same
    effect. *)
Theorem apply_gate_reads_name_and_two_qubits {AGI : AGInterface}
        (this : State) (op1 op2 : Op) :
  name op1 = name op2 ->
  qubit op1 0 = qubit op2 0 ->
  qubit op1 1 = qubit op2 1 ->
  apply_gate this op1 = apply_gate this op2.
Proof.
  intros Hname H0 H1. unfold apply_gate. rewrite Hname.
  destruct (stringmap_find gateset_ (name op2)) as [g | ]; [ | reflexivity].
  destruct g; cbn [apply_gate_switch]; rewrite ?H0, ?H1; reflexivity.
Qed.

Lemma apply_gate_reads_name_and_two_qubits_witness :
  apply_gate (Standin.sim Standin.ket001) (mkOp "cx" [0; 1; 2])
  = apply_gate (Standin.sim Standin.ket001) (mkOp "cx" [0; 1]).
Proof.
  apply (apply_gate_reads_name_and_two_qubits
           (Standin.sim Standin.ket001)
           (mkOp "cx" [0; 1; 2]) (mkOp "cx" [0; 1]));
    reflexivity.
Defined.

(** ** The dispatcher *)

Lemma compute_probability_frame {AGI : AGInterface}
      (fuel : nat) (this : State) (measured_qubits outcomes : list Z) :
  snd (compute_probability fuel this measured_qubits outcomes) = this.
Proof.
  rewrite compute_probability_exits. cbn zeta.
  destruct (negb (fst (snd (constraint_call this measured_qubits outcomes))));
    [reflexivity | ].
  destruct (num_qubits (magic_subsystem this measured_qubits outcomes) =? 0);
    reflexivity.
Qed.

Section DispatcherFacts.
Context {AGI : AGInterface}.
Variable ExperimentResult : Type.
Variable save_data_average :
  ExperimentResult -> string -> list R -> ExperimentResult.

Lemma save_inversion fuel this i result this' result' :
  apply_save_specific_probs save_data_average fuel this i result
  = Some (this', result') ->
  this' = this
  /\ exists p : R,
      fst (compute_probability fuel this (qubits (op i)) (int_params i))
      = Some p
      /\ result'
         = save_data_average result (nth 0 (string_params i) ""%string) [p].
Proof.
  unfold apply_save_specific_probs. intros Hsave.
  pose proof (compute_probability_frame
                fuel this (qubits (op i)) (int_params i)) as Hframe.
  destruct (compute_probability fuel this (qubits (op i)) (int_params i))
    as [[p | ] this1]; [ | discriminate Hsave].
  cbn [snd] in Hframe. subst this1.
  injection Hsave as <- <-. split; [reflexivity | ].
  exists p. split; reflexivity.
Qed.

Lemma run_app fuel this result ops1 ops2 :
  apply_ops save_data_average fuel this result (ops1 ++ ops2)
  = match apply_ops save_data_average fuel this result ops1 with
    | Some (Returned, this1, result1) =>
        apply_ops save_data_average fuel this1 result1 ops2
    | stopped => stopped
    end.
Proof.
  revert this result. induction ops1 as [ | i ops1 IH]; intros this result;
    [reflexivity | ].
  cbn [app apply_ops]. destruct (type i).
  - destruct (apply_gate this (op i)) as [[ | e] this1];
      [apply IH | reflexivity].
  - destruct (apply_save_specific_probs save_data_average fuel this i result)
      as [[this1 result1] | ]; [apply IH | reflexivity].
  - reflexivity.
Qed.

End DispatcherFacts.

Lemma compute_probability_total {AGI : AGInterface}
      (fuel : nat) (this : State) (measured_qubits outcomes : list Z) :
  0 <= num_stabilizers (magic_subsystem this measured_qubits outcomes) < 64 ->
  2 ^ num_stabilizers (magic_subsystem this measured_qubits outcomes) - 1
  < Z.of_nat fuel ->
  exists p : R,
    compute_probability fuel this measured_qubits outcomes = (Some p, this).
Proof.
  intros Hn Hfuel. rewrite compute_probability_exits. cbn zeta.
  destruct (negb (fst (snd (constraint_call this measured_qubits outcomes))));
    [eexists; reflexivity | ].
  destruct (num_qubits (magic_subsystem this measured_qubits outcomes) =? 0);
    [eexists; reflexivity | ].
  rewrite compute_algorithm_all_phases_T_total.
  - cbn [option_map]. eexists; reflexivity.
  - exact Hn.
  - rewrite full_mask_bound by lia. rewrite Z2Nat.id by lia. lia.
Qed.

(** X18.  [apply_save_specific_probs] returns once the bound on the
    iterations of the summation exceeds [2^n - 1] ([n < 64] the number of
    stabilizers left after the cleanup); it then leaves the simulator
    object as it was and records exactly one value, the probability that
    [compute_probability] returns for the operation's qubits and
    [int_params], under the key [string_params[0]] of an operation that
    has one. *)
Theorem save_records_one_probability {AGI : AGInterface}
        (ExperimentResult : Type)
        (save_data_average :
           ExperimentResult -> string -> list R -> ExperimentResult)
        (fuel : nat) (this : State) (i : Instruction)
        (result : ExperimentResult)
        (key : string) (more : list string) :
  let n := num_stabilizers
             (magic_subsystem this (qubits (op i)) (int_params i)) in
  0 <= n < 64 ->
  2 ^ n - 1 < Z.of_nat fuel ->
  string_params i = key :: more ->
  exists p : R,
    fst (compute_probability fuel this (qubits (op i)) (int_params i))
    = Some p
    /\ apply_save_specific_probs save_data_average fuel this i result
       = Some (this, save_data_average result key [p]).
Proof.
  intros n Hn Hfuel Hkey. subst n.
  destruct (compute_probability_total
              fuel this (qubits (op i)) (int_params i) Hn Hfuel) as [p Hp].
  exists p. unfold apply_save_specific_probs. rewrite Hp, Hkey.
  split; reflexivity.
Qed.

Lemma save_records_one_probability_witness :
  exists p : R,
    fst (compute_probability
           4 (Standin.sim (Samples.zero_and_magic T_ANGLE)) [0] [0])
    = Some p
    /\ apply_save_specific_probs
         Samples.record_entry 4
         (Standin.sim (Samples.zero_and_magic T_ANGLE))
         (mkInstruction OpType.save_specific_probs
                        (mkOp "save_specific_probs" [0]) [0] ["p0"%string])
         []
       = Some (Standin.sim (Samples.zero_and_magic T_ANGLE),
               Samples.record_entry [] "p0"%string [p]).
Proof.
  apply (save_records_one_probability
           Samples.log Samples.record_entry 4
           (Standin.sim (Samples.zero_and_magic T_ANGLE))
           (mkInstruction OpType.save_specific_probs
                          (mkOp "save_specific_probs" [0]) [0] ["p0"%string])
           [] "p0"%string []).
  - change (0 <= 2 < 64). lia.
  - change (2 ^ 2 - 1 < 4). lia.
  - reflexivity.
Defined.

(** X19.  [apply_ops] on a concatenation runs the first part and, when
    that returns normally, the second part on the object and the result it
    left; an exception or a summation that does not finish in the first
    part ends the whole call there. *)
Theorem apply_ops_concatenation {AGI : AGInterface}
        (ExperimentResult : Type)
        (save_data_average :
           ExperimentResult -> string -> list R -> ExperimentResult)
        (fuel : nat) (this : State) (result : ExperimentResult)
        (ops1 ops2 : list Instruction) :
  apply_ops save_data_average fuel this result (ops1 ++ ops2)
  = match apply_ops save_data_average fuel this result ops1 with
    | Some (Returned, this1, result1) =>
        apply_ops save_data_average fuel this1 result1 ops2
    | stopped => stopped
    end.
Proof. apply run_app. Qed.

(** X20.  A gate with an unknown name in the middle of a circuit: the
    operations before it have taken effect, the call ends with the
    invalid-gate exception, and nothing after it is run; the object and the
    result are the ones the earlier operations left. *)
Theorem apply_ops_stops_at_unknown_gate {AGI : AGInterface}
        (ExperimentResult : Type)
        (save_data_average :
           ExperimentResult -> string -> list R -> ExperimentResult)
        (fuel : nat) (this this1 : State)
        (result result1 : ExperimentResult)
        (ops1 ops2 : list Instruction) (i : Instruction) :
  apply_ops save_data_average fuel this result ops1
  = Some (Returned, this1, result1) ->
  type i = OpType.gate ->
  ~ In (name (op i)) (map fst gateset_) ->
  apply_ops save_data_average fuel this result (ops1 ++ i :: ops2)
  = Some (Thrown (invalid_argument
                    ("Compute::State: Invalid gate operation '"
                       ++ name (op i) ++ "'.")%string),
          this1, result1).
Proof.
  intros Hrun Htype Hnot. rewrite run_app, Hrun.
  cbn [apply_ops]. rewrite Htype. unfold apply_gate.
  rewrite (stringmap_find_absent gateset_ (name (op i)) Hnot). reflexivity.
Qed.

Lemma apply_ops_stops_at_unknown_gate_witness :
  apply_ops Samples.record_entry 0 (Standin.sim Standin.ket0) []
    ([mkInstruction OpType.gate (mkOp "x" [0]) [] []]
       ++ mkInstruction OpType.gate (mkOp "sx" [0]) [] []
       :: [mkInstruction OpType.gate (mkOp "x" [0]) [] []])
  = Some (Thrown (invalid_argument
                    "Compute::State: Invalid gate operation 'sx'."%string),
          Standin.sim (applyX Standin.ket0 0), []).
Proof.
  apply (apply_ops_stops_at_unknown_gate
           Samples.log Samples.record_entry 0
           (Standin.sim Standin.ket0) (Standin.sim (applyX Standin.ket0 0))
           [] []).
  - reflexivity.
  - reflexivity.
  - cbn [op name map fst gateset_ In].
    intros H; repeat (destruct H as [H | H]; [discriminate H | ]). exact H.
Defined.

(** X21.  An operation whose type is neither gate nor save_specific_probs
    ends [apply_ops] with the invalid-instruction exception that carries
    its name; the object and the result are the ones the earlier operations
    left. *)
Theorem apply_ops_stops_at_unsupported_type {AGI : AGInterface}
        (ExperimentResult : Type)
        (save_data_average :
           ExperimentResult -> string -> list R -> ExperimentResult)
        (fuel : nat) (this this1 : State)
        (result result1 : ExperimentResult)
        (ops1 ops2 : list Instruction) (i : Instruction) (tag : nat) :
  apply_ops save_data_average fuel this result ops1
  = Some (Returned, this1, result1) ->
  type i = OpType.other tag ->
  apply_ops save_data_average fuel this result (ops1 ++ i :: ops2)
  = Some (Thrown (invalid_argument
                    ("Compute::State::invalid instruction '"
                       ++ name (op i) ++ "'.")%string),
          this1, result1).
Proof.
  intros Hrun Htype. rewrite run_app, Hrun.
  cbn [apply_ops]. rewrite Htype. reflexivity.
Qed.

Lemma apply_ops_stops_at_unsupported_type_witness :
  apply_ops Samples.record_entry 0 (Standin.sim Standin.ket0) []
    ([mkInstruction OpType.gate (mkOp "x" [0]) [] []]
       ++ mkInstruction (OpType.other 0) (mkOp "measure" [0]) [] []
       :: [])
  = Some (Thrown (invalid_argument
                    "Compute::State::invalid instruction 'measure'."%string),
          Standin.sim (applyX Standin.ket0 0), []).
Proof.
  apply (apply_ops_stops_at_unsupported_type
           Samples.log Samples.record_entry 0
           (Standin.sim Standin.ket0) (Standin.sim (applyX Standin.ket0 0))
           [] []
           [mkInstruction OpType.gate (mkOp "x" [0]) [] []] []
           (mkInstruction (OpType.other 0) (mkOp "measure" [0]) [] []) 0);
    reflexivity.
Defined.

(** X22.  Probability queries are transparent to the simulation: when
    [apply_ops] returns normally, the object it leaves is the one left by
    running the gate operations alone, with any bound on the summation and
    any result object. *)
Theorem apply_ops_saves_do_not_disturb {AGI : AGInterface}
        (ExperimentResult : Type)
        (save_data_average :
           ExperimentResult -> string -> list R -> ExperimentResult)
        (fuel : nat) (this this' : State)
        (result result' : ExperimentResult) (ops : list Instruction) :
  apply_ops save_data_average fuel this result ops
  = Some (Returned, this', result') ->
  forall (fuel0 : nat) (result0 : ExperimentResult),
    apply_ops save_data_average fuel0 this result0 (filter is_gate ops)
    = Some (Returned, this', result0).
Proof.
  revert this result. induction ops as [ | i ops IH]; intros this result Hrun.
  - cbn [apply_ops] in Hrun. injection Hrun as <- _. reflexivity.
  - intros fuel0 result0. cbn [apply_ops] in Hrun. cbn [filter].
    unfold is_gate at 1. destruct (type i) eqn:Htype.
    + cbn [apply_ops]. rewrite Htype.
      destruct (apply_gate this (op i)) as [[ | e] this1];
        [ | discriminate Hrun].
      apply (IH this1 result Hrun).
    + destruct (apply_save_specific_probs save_data_average fuel this i result)
        as [[this1 result1] | ] eqn:Hsave; [ | discriminate Hrun].
      apply save_inversion in Hsave. destruct Hsave as [-> _].
      apply (IH this result1 Hrun).
    + discriminate Hrun.
Qed.

Lemma apply_ops_saves_do_not_disturb_witness :
  apply_ops Samples.record_entry 7 (Standin.sim Standin.ket0)
    [("old"%string, [])]
    (filter is_gate
       [mkInstruction OpType.save_specific_probs (mkOp "p" [0]) [0]
                      ["before"%string];
        mkInstruction OpType.gate (mkOp "x" [0]) [] [];
        mkInstruction OpType.save_specific_probs (mkOp "p" [0]) [1]
                      ["after"%string]])
  = Some (Returned, Standin.sim (applyX Standin.ket0 0),
          [("old"%string, [])]).
Proof.
  apply (apply_ops_saves_do_not_disturb
           Samples.log Samples.record_entry 0
           (Standin.sim Standin.ket0) (Standin.sim (applyX Standin.ket0 0))
           []
           [("after"%string, [powl 2 (1 - 1)]);
            ("before"%string, [powl 2 (1 - 1)])]).
  reflexivity.
Defined.

(** X23.  A circuit of gate operations only never touches the result
    object and never runs the summation: [apply_ops] ends the same way for
    every bound on the iterations, with the result it was given. *)
Theorem apply_ops_gates_only {AGI : AGInterface}
        (ExperimentResult : Type)
        (save_data_average :
           ExperimentResult -> string -> list R -> ExperimentResult)
        (this : State) (result : ExperimentResult)
        (ops : list Instruction) :
  (forall i, In i ops -> type i = OpType.gate) ->
  exists (c : completion) (this' : State),
    forall fuel : nat,
      apply_ops save_data_average fuel this result ops
      = Some (c, this', result).
Proof.
  revert this. induction ops as [ | i ops IH]; intros this Hgates.
  - exists Returned, this. reflexivity.
  - cbn [apply_ops]. rewrite (Hgates i) by (left; reflexivity).
    destruct (apply_gate this (op i)) as [[ | e] this1].
    + apply IH. intros j Hj. apply Hgates. right. exact Hj.
    + exists (Thrown e), this1. reflexivity.
Qed.

Lemma apply_ops_gates_only_witness :
  exists (c : completion) (this' : State),
    forall fuel : nat,
      apply_ops Samples.record_entry fuel (Standin.sim Standin.ket01) []
        [mkInstruction OpType.gate (mkOp "h" [0]) [] [];
         mkInstruction OpType.gate (mkOp "cx" [0; 1]) [] []]
      = Some (c, this', []).
Proof.
  apply (apply_ops_gates_only
           Samples.log Samples.record_entry (Standin.sim Standin.ket01) []).
  intros i [<- | [<- | []]]; reflexivity.
Defined.

(** ** Initialisation from a given state *)

(** X24.  [initialize_qreg(num_qubits, state)] compares [num_qubits] with
    the register that is being replaced, not with the state supplied: when
    the current register has [num_qubits] qubits the call installs [state],
    whatever its own size, and keeps [num_code_qubits]. *)
Theorem initialize_qreg_state_installs {AGI : AGInterface}
        (this : State) (n : Z) (state : AGState Rest) :
  num_qubits (qreg_ this) = n ->
  initialize_qreg_state this n state
  = (Returned, mkState state (num_code_qubits this)).
Proof.
  intros Hn. unfold initialize_qreg_state. rewrite Hn, Z.eqb_refl.
  reflexivity.
Qed.

Lemma initialize_qreg_state_installs_witness :
  initialize_qreg_state (Standin.sim Standin.ket0) 1 Standin.ket01
  = (Returned, Standin.sim Standin.ket01)
  /\ num_qubits Standin.ket01 <> 1.
Proof.
  split; [ | discriminate].
  apply (initialize_qreg_state_installs
           (Standin.sim Standin.ket0) 1 Standin.ket01).
  reflexivity.
Defined.

(** X25.  [initialize_qreg(num_qubits, state)] throws [invalid_argument]
    and leaves the object as it was when the current register does not have
    [num_qubits] qubits, even when the state supplied has. *)
Theorem initialize_qreg_state_rejects {AGI : AGInterface}
        (this : State) (n : Z) (state : AGState Rest) :
  num_qubits (qreg_ this) <> n ->
  initialize_qreg_state this n state
  = (Thrown
       (invalid_argument
          ("CH::State::initialize: initial state does not match "
             ++ "qubit number.")%string),
     this).
Proof.
  intros Hn. unfold initialize_qreg_state.
  destruct (Z.eqb_spec (num_qubits (qreg_ this)) n) as [Heq | _];
    [contradiction | reflexivity].
Qed.

Lemma initialize_qreg_state_rejects_witness :
  fst (initialize_qreg_state (Standin.sim Standin.ket0) 2 Standin.ket01)
  <> Returned
  /\ num_qubits Standin.ket01 = 2.
Proof.
  split; [ | reflexivity].
  rewrite (initialize_qreg_state_rejects
             (Standin.sim Standin.ket0) 2 Standin.ket01).
  - discriminate.
  - discriminate.
Defined.

(** ** The truncation of the rows *)

Lemma bv_resize_length t v : List.length (bv_resize t v) = t.
Proof.
  unfold bv_resize. rewrite length_app, length_firstn, repeat_length. lia.
Qed.

Lemma bv_resize_get t v j :
  bv_get (bv_resize t v) j = if (j <? t)%nat then bv_get v j else false.
Proof.
  unfold bv_get, bv_resize.
  destruct (Nat.ltb_spec j t) as [Hlt | Hge].
  - destruct (Nat.lt_ge_cases j (List.length v)) as [Hin | Hout].
    + rewrite app_nth1 by (rewrite length_firstn; lia).
      rewrite <- (firstn_skipn t v) at 2.
      rewrite app_nth1 by (rewrite length_firstn; lia). reflexivity.
    + rewrite (nth_overflow v) by lia.
      rewrite app_nth2 by (rewrite length_firstn; lia).
      apply nth_repeat.
  - apply nth_overflow. rewrite length_app, length_firstn, repeat_length. lia.
Qed.

(** X26.  The truncation loop of lines 302-305 keeps the number of rows;
    each of the first [n] rows gets exactly [t] X bits and [t] Z bits, the
    first [t] bits of the row as it was (zero where the row was shorter);
    the rows from [n] on are left as they were. *)
Theorem resize_rows_truncates (n t : nat) (rows : list PauliRow) (i : nat) :
  List.length (resize_rows n t rows) = List.length rows
  /\ let r := nth i rows Samples.no_row in
     let r' := nth i (resize_rows n t rows) Samples.no_row in
     if (i <? n)%nat && (i <? List.length rows)%nat
     then List.length (Pauli.X r') = t
          /\ List.length (Pauli.Z r') = t
          /\ forall j : nat,
              bv_get (Pauli.X r') j
              = (if (j <? t)%nat then bv_get (Pauli.X r) j else false)
              /\ bv_get (Pauli.Z r') j
                 = (if (j <? t)%nat then bv_get (Pauli.Z r) j else false)
     else r' = r.
Proof.
  revert n i. induction rows as [ | r0 rows IH]; intros n i.
  - destruct n; cbn [resize_rows List.length].
    + split; [reflexivity | ]. rewrite andb_false_r. reflexivity.
    + split; [reflexivity | ]. rewrite andb_false_r. reflexivity.
  - destruct n as [ | n]; cbn [resize_rows].
    + split; [reflexivity | ]. reflexivity.
    + cbn [List.length]. split; [f_equal; apply (proj1 (IH n O)) | ].
      cbv zeta. destruct i as [ | i]; cbn [nth].
      * change (0 <? S n)%nat with true.
        change (0 <? S (List.length rows))%nat with true.
        cbn [andb Pauli.X Pauli.Z].
        rewrite !bv_resize_length. repeat split; apply bv_resize_get.
      * change (S i <? S n)%nat with (i <? n)%nat.
        change (S i <? S (List.length rows))%nat
          with (i <? List.length rows)%nat.
        apply (proj2 (IH n i)).
Qed.
